(** * Binary operation calculator: lexer, parser and truth-table evaluator

    A shallow embedding of [binary_operation_calculator.py].  The pipeline is

      text --Lexer--> tokens --Parser--> AST --Calculator--> (labels, rows)

    Python strings are modelled as [string]; a character is a code point
    below 256.  Python's unbounded integers are modelled as [nat].  The
    dictionary [Parser.variables] preserves insertion order, so it is an
    association list with new keys appended at the end.  The interpreter's
    limit on the depth of recursion is not modelled. *)

From Stdlib Require Import Bool Arith PeanoNat List Permutation.
From Stdlib Require Import String Ascii Lia.
From Stdlib Require Import Decimal DecimalString.
Import ListNotations.
Open Scope string_scope.
Open Scope list_scope.
Open Scope nat_scope.

(** ** Outcomes of a call

    [Return] and [Raise] are the two ways a Python call ends.  [Undefined]
    is not a Python outcome: the model yields it when the recursion budget
    of the parser is used up, or in a branch that needs a token the lexer
    never builds (a variable token without a name). *)

Inductive Exception : Type :=
| InvalidCharacter (c : ascii) (pos : nat)
| InvalidSyntax (expected : string) (pos : nat)
| IndexError (index : nat).

Inductive result (A : Type) : Type :=
| Return (a : A)
| Raise (e : Exception)
| Undefined.

Arguments Return {A} a.
Arguments Raise {A} e.
Arguments Undefined {A}.

(** [str(n)] for a non-negative integer. *)
Definition str (n : nat) : string := NilZero.string_of_uint (Nat.to_uint n).

(** The text of the raised [Exception]: [f"{msg} in pos={self.pos}\n"]. *)
Definition newline : string := String (ascii_of_nat 10) EmptyString.

Definition message (e : Exception) : string :=
  match e with
  | InvalidCharacter c pos =>
      ("Invalid character `" ++ String c "`" ++ " in pos=" ++ str pos
         ++ newline)%string
  | InvalidSyntax expected pos =>
      ("Invalid syntax, expected `" ++ expected ++ "`" ++ " in pos=" ++ str pos
         ++ newline)%string
  | IndexError _ => "list index out of range"
  end.

(** ** Character classes: [str.isspace] and [str.isalnum] below 256 *)

Definition between (lo hi n : nat) : bool := (lo <=? n) && (n <=? hi).

Definition isspace (c : ascii) : bool :=
  let n := nat_of_ascii c in
  between 9 13 n || between 28 32 n || (n =? 133) || (n =? 160).

Definition isalnum (c : ascii) : bool :=
  let n := nat_of_ascii c in
  between 48 57 n || between 65 90 n || between 97 122 n
  || (n =? 170) || between 178 179 n || (n =? 181) || between 185 186 n
  || between 188 190 n || between 192 214 n || between 216 246 n
  || between 248 255 n.

(** ** Tokens *)

Record Token : Type := mkToken { type : string; value : option string }.

Module TokenType.
Definition LPAREN : string := "(".
Definition RPAREN : string := ")".
Definition VAR : string := "variable".
Definition NOT : string := "!".
Definition AND : string := "&".
Definition XOR : string := "^".
Definition OR : string := "|".
Definition EOF : string := "EOF".
Definition SINGLE_CHARACTER_TOKENS : string := "()!&^|".
End TokenType.
Import TokenType.

(** [c in s] for a one-character string [c]. *)
Fixpoint char_in (c : ascii) (s : string) : bool :=
  match s with
  | EmptyString => false
  | String d s' => Ascii.eqb c d || char_in c s'
  end.

(** ** Lexer *)

Record Lexer : Type := mkLexer { text : string; pos : nat }.

Module Lex.

Definition init (text : string) : Lexer := mkLexer text 0.

(** [while self.pos < len(self.text) and self.text[self.pos].isspace():
       self.pos += 1]
    The budget bounds the number of iterations; [length text] is enough. *)
Fixpoint skip_whitespaces (budget : nat) (text : string) (pos : nat) : nat :=
  match budget with
  | O => pos
  | S budget' =>
      match String.get pos text with
      | Some c =>
          if isspace c then skip_whitespaces budget' text (S pos) else pos
      | None => pos
      end
  end.

(** [while self.pos < len(self.text) and self.text[self.pos].isalnum():
       variable.append(self.text[self.pos]); self.pos += 1] *)
Fixpoint read_variable (budget : nat) (text : string) (pos : nat)
  : string * nat :=
  match budget with
  | O => (EmptyString, pos)
  | S budget' =>
      match String.get pos text with
      | Some c =>
          if isalnum c
          then let (variable, pos') := read_variable budget' text (S pos) in
               (String c variable, pos')
          else (EmptyString, pos)
      | None => (EmptyString, pos)
      end
  end.

Definition get_next_token (self : Lexer) : result (Token * Lexer) :=
  let text := text self in
  let pos := skip_whitespaces (String.length text) text (pos self) in
  match String.get pos text with
  | None => Return (mkToken EOF None, mkLexer text pos)
  | Some c =>
      if char_in c SINGLE_CHARACTER_TOKENS
      then Return (mkToken (String c EmptyString) None, mkLexer text (S pos))
      else if isalnum c
      then let (variable, pos') := read_variable (String.length text) text pos in
           Return (mkToken VAR (Some variable), mkLexer text pos')
      else Raise (InvalidCharacter c pos)
  end.

(** Pulling tokens until [EOF]: the token stream the parser reads from. *)
Fixpoint tokens (budget : nat) (self : Lexer) : result (list Token) :=
  match budget with
  | O => Undefined
  | S budget' =>
      match get_next_token self with
      | Return (token, self') =>
          if String.eqb (type token) EOF then Return [token]
          else match tokens budget' self' with
               | Return rest => Return (token :: rest)
               | Raise e => Raise e
               | Undefined => Undefined
               end
      | Raise e => Raise e
      | Undefined => Undefined
      end
  end.

Definition tokenize (text : string) : result (list Token) :=
  tokens (S (String.length text)) (init text).

End Lex.

(** ** Abstract syntax tree *)

Inductive AST : Type :=
| BinaryOperator (token : Token) (operator : bool -> bool -> bool)
    (left right : AST)
| UnaryOperator (token : Token) (operator : bool -> bool) (expr : AST)
| Variable_ (token : Token) (id : nat).

(** [operator.not_], [and_], [xor], [or_] on [bool]. *)
Definition not_ : bool -> bool := negb.
Definition and_ : bool -> bool -> bool := andb.
Definition xor : bool -> bool -> bool := xorb.
Definition or_ : bool -> bool -> bool := orb.

(** ** Parser *)

(** The insertion-ordered dictionary [variables]: name to id. *)
Definition dict : Type := list (string * nat).

Fixpoint dict_get (key : string) (d : dict) : option nat :=
  match d with
  | [] => None
  | (k, v) :: d' => if String.eqb k key then Some v else dict_get key d'
  end.

(** [d.setdefault(key, default)]: the stored value, and the dictionary. *)
Definition setdefault (key : string) (default : nat) (d : dict) : nat * dict :=
  match dict_get key d with
  | Some v => (v, d)
  | None => (default, d ++ [(key, default)])
  end.

Definition keys (d : dict) : list string := map fst d.

Record Parser : Type :=
  mkParser { lexer : Lexer; current_token : Token; variables : dict }.

(** Methods of [Parser] read and update [self] and may raise. *)
Definition M (A : Type) : Type := Parser -> result (A * Parser).

Definition ret {A : Type} (a : A) : M A := fun self => Return (a, self).

Definition bind {A B : Type} (m : M A) (k : A -> M B) : M B :=
  fun self =>
    match m self with
    | Return (a, self') => k a self'
    | Raise e => Raise e
    | Undefined => Undefined
    end.

Definition undefined {A : Type} : M A := fun _ => Undefined.

Notation "x <- m ;; k" := (bind m (fun x => k))
  (at level 61, m at next level, right associativity).
Notation "m ;;; k" := (bind m (fun _ => k))
  (at level 61, right associativity).

Module Parse.

(** [Parser.__init__]: reads the first token. *)
Definition init (lexer : Lexer) : result Parser :=
  match Lex.get_next_token lexer with
  | Return (token, lexer') => Return (mkParser lexer' token [])
  | Raise e => Raise e
  | Undefined => Undefined
  end.

(** [self.lexer.raise_exception(f"Invalid syntax, expected `{what}`")] *)
Definition raise_syntax {A : Type} (what : string) : M A :=
  fun self => Raise (InvalidSyntax what (pos (lexer self))).

Definition get_current_token : M Token :=
  fun self => Return (current_token self, self).

Definition eat_token (token_type : string) : M unit :=
  fun self =>
    if negb (String.eqb (type (current_token self)) token_type)
    then raise_syntax token_type self
    else match Lex.get_next_token (lexer self) with
         | Return (token, lexer') =>
             Return (tt, mkParser lexer' token (variables self))
         | Raise e => Raise e
         | Undefined => Undefined
         end.

(** [self.variables.setdefault(token.value, len(self.variables))] *)
Definition register (token : Token) : M nat :=
  fun self =>
    match value token with
    | Some name =>
        let (id, variables') :=
          setdefault name (List.length (variables self)) (variables self) in
        Return (id, mkParser (lexer self) (current_token self) variables')
    | None => Undefined
    end.

(** The grammar rules.  Every call and every loop iteration takes one
    unit of [fuel]; [Undefined] results when it is used up. *)
Fixpoint factor (fuel : nat) : M AST :=
  match fuel with
  | O => undefined
  | S fuel =>
      token <- get_current_token ;;
      if String.eqb (type token) NOT then
        eat_token NOT ;;;
        node <- factor fuel ;;
        ret (UnaryOperator token not_ node)
      else if String.eqb (type token) VAR then
        eat_token VAR ;;;
        id <- register token ;;
        ret (Variable_ token id)
      else if String.eqb (type token) LPAREN then
        eat_token LPAREN ;;;
        node <- expr_OR fuel ;;
        eat_token RPAREN ;;;
        ret node
      else raise_syntax "factor"
  end

with expr_AND (fuel : nat) : M AST :=
  match fuel with
  | O => undefined
  | S fuel => node <- factor fuel ;; expr_AND_while fuel node
  end

with expr_AND_while (fuel : nat) (node : AST) : M AST :=
  match fuel with
  | O => undefined
  | S fuel =>
      token <- get_current_token ;;
      if String.eqb (type token) AND then
        eat_token AND ;;;
        right <- factor fuel ;;
        expr_AND_while fuel (BinaryOperator token and_ node right)
      else ret node
  end

with expr_XOR (fuel : nat) : M AST :=
  match fuel with
  | O => undefined
  | S fuel => node <- expr_AND fuel ;; expr_XOR_while fuel node
  end

with expr_XOR_while (fuel : nat) (node : AST) : M AST :=
  match fuel with
  | O => undefined
  | S fuel =>
      token <- get_current_token ;;
      if String.eqb (type token) XOR then
        eat_token XOR ;;;
        right <- expr_AND fuel ;;
        expr_XOR_while fuel (BinaryOperator token xor node right)
      else ret node
  end

with expr_OR (fuel : nat) : M AST :=
  match fuel with
  | O => undefined
  | S fuel => node <- expr_XOR fuel ;; expr_OR_while fuel node
  end

with expr_OR_while (fuel : nat) (node : AST) : M AST :=
  match fuel with
  | O => undefined
  | S fuel =>
      token <- get_current_token ;;
      if String.eqb (type token) OR then
        eat_token OR ;;;
        right <- expr_XOR fuel ;;
        expr_OR_while fuel (BinaryOperator token or_ node right)
      else ret node
  end.

(** [expr : expr_OR EOF] *)
Definition expr (fuel : nat) : M AST :=
  node <- expr_OR fuel ;;
  eat_token EOF ;;;
  ret node.

Definition parse (fuel : nat) : M AST := expr fuel.

(** Fuel that is always enough for [parse] on a text of the given
    length (see [parse_defined]). *)
Definition enough (text : string) : nat := 4 * String.length text + 8.

End Parse.

(** ** Calculator *)

Record Calculator : Type := mkCalculator { parser : Parser; tree : AST }.


Module Calc.

(** [Calculator.__init__]: parses at once. *)
Definition init (fuel : nat) (parser : Parser) : result Calculator :=
  match Parse.parse fuel parser with
  | Return (tree, parser') => Return (mkCalculator parser' tree)
  | Raise e => Raise e
  | Undefined => Undefined
  end.

(** How an f-string shows [token.value]. *)
Definition format (v : option string) : string :=
  match v with
  | Some s => s
  | None => "None"
  end.

(** [f"[{len(exprs)}]"] *)
Definition reference (exprs : list string) : string :=
  ("[" ++ str (List.length exprs) ++ "]")%string.

(** [visit] of [Calculator.expr]; the list [exprs] is threaded through. *)
Fixpoint expr_visit (node : AST) (exprs : list string)
  : string * list string :=
  match node with
  | BinaryOperator token _ node_left node_right =>
      let (l, exprs1) := expr_visit node_left exprs in
      let (r, exprs2) := expr_visit node_right exprs1 in
      let exprs3 := exprs2 ++ [(l ++ " " ++ type token ++ " " ++ r)%string] in
      (reference exprs3, exprs3)
  | UnaryOperator token _ expr =>
      let (e, exprs1) := expr_visit expr exprs in
      let exprs2 := exprs1 ++ [(type token ++ " " ++ e)%string] in
      (reference exprs2, exprs2)
  | Variable_ token _ => (format (value token), exprs)
  end.

Definition expr (verbose : bool) (self : Calculator)
  : list nat * list string :=
  let exprs := keys (variables (parser self)) in
  let exprs :=
    if verbose then
      let n := List.length exprs in
      let exprs := snd (expr_visit (tree self) exprs) in
      if n =? List.length exprs then exprs ++ exprs else exprs
    else exprs ++ ["[result]"%string] in
  (seq 1 (List.length exprs), exprs).

(** [values[i]], which raises [IndexError] out of range. *)
Definition index (values : list bool) (i : nat) : result bool :=
  match nth_error values i with
  | Some v => Return v
  | None => Raise (IndexError i)
  end.

(** [visit] of [Calculator.result_iterator]; [results] is threaded
    through.  The right operand is visited before the left one. *)
Fixpoint result_visit (verbose : bool) (values : list bool) (node : AST)
  (results : list bool) : result (bool * list bool) :=
  match node with
  | BinaryOperator _ operator node_left node_right =>
      match result_visit verbose values node_right results with
      | Return (r, results1) =>
          match result_visit verbose values node_left results1 with
          | Return (l, results2) =>
              let sub_result := operator r l in
              Return (sub_result,
                      if verbose then results2 ++ [sub_result] else results2)
          | Raise e => Raise e
          | Undefined => Undefined
          end
      | Raise e => Raise e
      | Undefined => Undefined
      end
  | UnaryOperator _ operator expr =>
      match result_visit verbose values expr results with
      | Return (e, results1) =>
          let sub_result := operator e in
          Return (sub_result,
                  if verbose then results1 ++ [sub_result] else results1)
      | Raise e => Raise e
      | Undefined => Undefined
      end
  | Variable_ _ id =>
      match index values id with
      | Return v => Return (v, results)
      | Raise e => Raise e
      | Undefined => Undefined
      end
  end.

(** [[bool((mask >> i) & 1) for i in range(n)]] *)
Definition assignment (n mask : nat) : list bool :=
  map (fun i => negb (Nat.land (Nat.shiftr mask i) 1 =? 0)) (seq 0 n).

Definition is_empty {A : Type} (l : list A) : bool :=
  match l with
  | [] => true
  | _ :: _ => false
  end.

(** The body of the loop [for mask in range(limit)]: one yielded row. *)
Definition row (verbose : bool) (self : Calculator) (mask : nat)
  : result (list bool * list bool) :=
  let n := List.length (variables (parser self)) in
  let values := assignment n mask in
  match result_visit verbose values (tree self) [] with
  | Return (result, results) =>
      Return (values,
              if negb verbose || is_empty results
              then results ++ [result] else results)
  | Raise e => Raise e
  | Undefined => Undefined
  end.

(** Running the generator over the given masks, in order. *)
Fixpoint rows (verbose : bool) (self : Calculator) (masks : list nat)
  : result (list (list bool * list bool)) :=
  match masks with
  | [] => Return []
  | mask :: masks' =>
      match row verbose self mask with
      | Return r =>
          match rows verbose self masks' with
          | Return rs => Return (r :: rs)
          | Raise e => Raise e
          | Undefined => Undefined
          end
      | Raise e => Raise e
      | Undefined => Undefined
      end
  end.

(** [tuple(self.result_iterator(verbose))] *)
Definition result (verbose : bool) (self : Calculator)
  : result (list (list bool * list bool)) :=
  let n := List.length (variables (parser self)) in
  let limit := Nat.shiftl 1 n in
  rows verbose self (seq 0 limit).

End Calc.

(** [Calculator(Parser(Lexer(text)))], as [main] builds it. *)
Definition calculator (text : string) : result Calculator :=
  match Parse.init (Lex.init text) with
  | Return parser => Calc.init (Parse.enough text) parser
  | Raise e => Raise e
  | Undefined => Undefined
  end.


(** ** Notions used in the statements *)

(** The truth value a node denotes under an assignment.  A variable whose
    id is out of range reads as [false]; [bounded] excludes that case. *)
Fixpoint eval (values : list bool) (node : AST) : bool :=
  match node with
  | BinaryOperator _ operator node_left node_right =>
      operator (eval values node_right) (eval values node_left)
  | UnaryOperator _ operator expr => operator (eval values expr)
  | Variable_ _ id => nth id values false
  end.

(** Every variable id of the tree is below [n]. *)
Fixpoint bounded (n : nat) (node : AST) : Prop :=
  match node with
  | BinaryOperator _ _ node_left node_right =>
      bounded n node_left /\ bounded n node_right
  | UnaryOperator _ _ expr => bounded n expr
  | Variable_ _ id => id < n
  end.

Definition is_internal (node : AST) : bool :=
  match node with
  | Variable_ _ _ => false
  | _ => true
  end.

(** The internal nodes in the order in which [Calc.expr_visit] appends
    their labels: left subtree, right subtree, the node. *)
Fixpoint labelled_nodes (node : AST) : list AST :=
  match node with
  | BinaryOperator _ _ node_left node_right =>
      labelled_nodes node_left ++ labelled_nodes node_right ++ [node]
  | UnaryOperator _ _ expr => labelled_nodes expr ++ [node]
  | Variable_ _ _ => []
  end.

(** The internal nodes in the order in which [Calc.result_visit] appends
    their values: right subtree, left subtree, the node. *)
Fixpoint evaluated_nodes (node : AST) : list AST :=
  match node with
  | BinaryOperator _ _ node_left node_right =>
      evaluated_nodes node_right ++ evaluated_nodes node_left ++ [node]
  | UnaryOperator _ _ expr => evaluated_nodes expr ++ [node]
  | Variable_ _ _ => []
  end.

(** The mask an assignment row stands for: bit [i] is [values[i]]. *)
Fixpoint mask_of (values : list bool) : nat :=
  match values with
  | [] => 0
  | b :: values' => Nat.b2n b + 2 * mask_of values'
  end.

(** The internal-node labels when the reference of an internal node is
    [base] plus its 1-based rank among the internal-node labels.  With
    [base = 0] the reference counts internal-node labels only. *)
Fixpoint numbered_labels (base : nat) (node : AST) (labels : list string)
  : string * list string :=
  match node with
  | BinaryOperator token _ node_left node_right =>
      let (l, labels1) := numbered_labels base node_left labels in
      let (r, labels2) := numbered_labels base node_right labels1 in
      let labels3 :=
        labels2 ++ [(l ++ " " ++ type token ++ " " ++ r)%string] in
      (("[" ++ str (base + List.length labels3) ++ "]")%string, labels3)
  | UnaryOperator token _ expr =>
      let (e, labels1) := numbered_labels base expr labels in
      let labels2 := labels1 ++ [(type token ++ " " ++ e)%string] in
      (("[" ++ str (base + List.length labels2) ++ "]")%string, labels2)
  | Variable_ token _ => (Calc.format (value token), labels)
  end.

(** The variable leaves of a tree, left to right. *)
Fixpoint leaves (node : AST) : list (Token * nat) :=
  match node with
  | BinaryOperator _ _ node_left node_right =>
      leaves node_left ++ leaves node_right
  | UnaryOperator _ _ expr => leaves expr
  | Variable_ token id => [(token, id)]
  end.

Definition leaf_name (leaf : Token * nat) : string :=
  Calc.format (value (fst leaf)).

Definition leaf_names (node : AST) : list string :=
  map leaf_name (leaves node).

(** Every leaf token carries a name. *)
Definition named (node : AST) : Prop :=
  Forall (fun leaf => value (fst leaf) <> None) (leaves node).

(** Every leaf holds the id the dictionary has for its name. *)
Definition registered (d : dict) (node : AST) : Prop :=
  Forall (fun leaf => dict_get (leaf_name leaf) d = Some (snd leaf))
    (leaves node).

Definition register_name (d : dict) (name : string) : dict :=
  snd (setdefault name (List.length d) d).

Definition register_all (names : list string) (d : dict) : dict :=
  fold_left register_name names d.

(** The ids of a dictionary are the positions of its keys, and no key is
    stored twice. *)
Definition dict_ok (d : dict) : Prop :=
  map snd d = seq 0 (List.length d) /\ NoDup (keys d).

(** What one grammar rule does to the dictionary while it builds [node]. *)
Definition built (d : dict) (node : AST) (d' : dict) : Prop :=
  named node /\ d' = register_all (leaf_names node) d /\ registered d' node.

(** The offset at which the next token starts. *)
Definition token_offset (self : Lexer) : nat :=
  Lex.skip_whitespaces (String.length (text self)) (text self) (pos self).

(** A character no token can start with. *)
Definition invalid (c : ascii) : bool :=
  negb (isspace c) && negb (char_in c SINGLE_CHARACTER_TOKENS)
  && negb (isalnum c).

(** The character at offset [i] is one no token can start with. *)
Definition invalid_at (text : string) (i : nat) : bool :=
  match String.get i text with
  | Some c => invalid c
  | None => false
  end.

(** What is left to read: the characters after the cursor, and the
    lookahead token unless it is [EOF]. *)
Definition remaining (self : Parser) : nat :=
  (String.length (text (lexer self)) - pos (lexer self))
  + (if String.eqb (type (current_token self)) EOF then 0 else 1).

(** Tokens as the lexer builds them: a variable token has a name. *)
Definition token_ok (token : Token) : Prop :=
  type token = VAR -> value token <> None.

(** The rows of the table for a tree whose ids are in range. *)
Definition table_row (verbose : bool) (self : Calculator) (mask : nat)
  : list bool * list bool :=
  let values := Calc.assignment (List.length (variables (parser self))) mask in
  (values,
   if verbose && is_internal (tree self)
   then map (eval values) (evaluated_nodes (tree self))
   else [eval values (tree self)]).

(** A call that ends: it raises, or it returns a value and a parser state
    that satisfy [Q]. *)
Definition outcome {A : Type} (r : result (A * Parser))
  (Q : A -> Parser -> Prop) : Prop :=
  match r with
  | Return (a, self') => Q a self'
  | Raise _ => True
  | Undefined => False
  end.

(** A grammar rule that reads at least one token and builds a subtree,
    given fuel for what is left to read. *)
Definition rule_spec (k fuel : nat) (rule : M AST) : Prop :=
  forall self,
    token_ok (current_token self) ->
    4 * remaining self + k <= fuel ->
    outcome (rule self)
      (fun node self' =>
         built (variables self) node (variables self')
         /\ token_ok (current_token self')
         /\ remaining self' < remaining self).

(** A loop of a grammar rule that extends the tree built so far. *)
Definition loop_spec (fuel : nat) (loop : AST -> M AST) : Prop :=
  forall d0 node0 self,
    token_ok (current_token self) ->
    4 * remaining self + 1 <= fuel ->
    built d0 node0 (variables self) ->
    outcome (loop node0 self)
      (fun node self' =>
         built d0 node (variables self')
         /\ token_ok (current_token self')
         /\ remaining self' <= remaining self).

(** ** Further notions *)

(** The operator a node applies is the one its token shows, and a leaf
    holds a variable token. *)
Definition binary_symbol (token : Token) (operator : bool -> bool -> bool)
  : Prop :=
  (type token = AND /\ operator = and_)
  \/ (type token = XOR /\ operator = xor)
  \/ (type token = OR /\ operator = or_).

Fixpoint well_formed (node : AST) : Prop :=
  match node with
  | BinaryOperator token operator node_left node_right =>
      binary_symbol token operator
      /\ well_formed node_left /\ well_formed node_right
  | UnaryOperator token operator expr =>
      type token = NOT /\ operator = not_ /\ well_formed expr
  | Variable_ token _ => type token = VAR
  end.

(** The truth value of a tree read from the symbols of its tokens, left
    operand first. *)
Fixpoint denote (values : list bool) (node : AST) : bool :=
  match node with
  | BinaryOperator token _ node_left node_right =>
      if String.eqb (type token) AND
      then denote values node_left && denote values node_right
      else if String.eqb (type token) XOR
      then xorb (denote values node_left) (denote values node_right)
      else denote values node_left || denote values node_right
  | UnaryOperator _ _ expr => negb (denote values expr)
  | Variable_ _ id => nth id values false
  end.

(** A rule, and a loop of a rule, keep the property [I] of the parser
    state and return trees with the property [good]. *)
Definition rule_keeps (I : Parser -> Prop) (good : AST -> Prop)
  (rule : M AST) : Prop :=
  forall self node self',
    I self -> rule self = Return (node, self') -> I self' /\ good node.

Definition loop_keeps (I : Parser -> Prop) (good : AST -> Prop)
  (loop : AST -> M AST) : Prop :=
  forall node0 self node self',
    I self -> good node0 -> loop node0 self = Return (node, self') ->
    I self' /\ good node.

(** What the parser has read of [txt]: no character before the cursor is
    invalid, and the lookahead token is [EOF] only at the end. *)
Definition lexed (txt : string) (self : Parser) : Prop :=
  text (lexer self) = txt
  /\ (forall j d, j < pos (lexer self) -> String.get j txt = Some d ->
                  invalid d = false)
  /\ (type (current_token self) = EOF ->
      String.length txt <= pos (lexer self)).

(** [m'] ends as [m] does wherever [m] ends within its fuel. *)
Definition refines {A : Type} (m m' : M A) : Prop :=
  forall self, m self <> Undefined -> m' self = m self.

(** No binary node has internal nodes in both of its operands. *)
Fixpoint one_sided (node : AST) : bool :=
  match node with
  | BinaryOperator _ _ node_left node_right =>
      (negb (is_internal node_left) || negb (is_internal node_right))
      && one_sided node_left && one_sided node_right
  | UnaryOperator _ _ expr => one_sided expr
  | Variable_ _ _ => true
  end.

(** ** Printing the table

    [print_table] writes lines to the standard output; the model returns
    the lines written, in order, and how the call ended. *)

(** [s * n] *)
Fixpoint repeat_string (s : string) (n : nat) : string :=
  match n with
  | O => EmptyString
  | S n' => (s ++ repeat_string s n')%string
  end.

(** [sep.join(parts)], which is also how [print] separates its arguments. *)
Fixpoint join (sep : string) (parts : list string) : string :=
  match parts with
  | [] => EmptyString
  | part :: parts' =>
      match parts' with
      | [] => part
      | _ :: _ => (part ++ sep ++ join sep parts')%string
      end
  end.

(** [f"{s:<{width}}"] *)
Definition ljust (s : string) (width : nat) : string :=
  (s ++ repeat_string " " (width - String.length s))%string.

(** [f"{s:^{width}}"]: the smaller half of the padding goes to the left. *)
Definition center (s : string) (width : nat) : string :=
  let pad := width - String.length s in
  (repeat_string " " (pad / 2) ++ s ++ repeat_string " " (pad - pad / 2))%string.

(** [tuple(max(len(str(i)), len(e)) for i, e in zip(indices, exprs))] *)
Definition column_sizes (indices : list nat) (exprs : list string)
  : list nat :=
  map (fun ie => Nat.max (String.length (str (fst ie))) (String.length (snd ie)))
    (combine indices exprs).

Definition dashes (sizes : list nat) : string :=
  join "-+-" (map (repeat_string "-") sizes).

(** [print("+", "-+-".join(...), "+ +", "-+-".join(...), "+", sep="-")] *)
Definition border (idx_sep : nat) (sizes : list nat) : string :=
  join "-" ["+"%string; dashes (firstn idx_sep sizes); "+ +"%string;
            dashes (skipn idx_sep sizes); "+"%string].

(** The loop over [enumerate(zip(items, sizes))] of a heading line. *)
Fixpoint heading_cells {A : Type} (show : A -> string) (idx_sep k : nat)
  (cells : list (A * nat)) : string :=
  match cells with
  | [] => EmptyString
  | (x, s) :: cells' =>
      ((if Nat.eqb k idx_sep then " |" else "")
       ++ " " ++ ljust (show x) s ++ " |"
       ++ heading_cells show idx_sep (S k) cells')%string
  end.

Definition heading {A : Type} (show : A -> string) (idx_sep : nat)
  (items : list A) (sizes : list nat) : string :=
  ("|" ++ heading_cells show idx_sep 0 (combine items sizes))%string.

(** [int(p)] shown by an f-string. *)
Definition digit (b : bool) : string := str (if b then 1 else 0).

(** The loops over [zip(params, sizes[:idx_sep])] and
    [zip(results, sizes[idx_sep:])] of a row. *)
Fixpoint row_cells (cells : list (bool * nat)) : string :=
  match cells with
  | [] => EmptyString
  | (b, s) :: cells' =>
      (" " ++ center (digit b) s ++ " |" ++ row_cells cells')%string
  end.

Definition row_line (idx_sep : nat) (sizes : list nat)
  (params results : list bool) : string :=
  ("|" ++ row_cells (combine params (firstn idx_sep sizes))
   ++ " |" ++ row_cells (combine results (skipn idx_sep sizes)))%string.

(** The loop over [calc.result_iterator(verbose)]: a row is printed when
    the generator yields it, so the rows before an exception stay
    printed. *)
Fixpoint print_rows (verbose : bool) (calc : Calculator) (idx_sep : nat)
  (sizes : list nat) (masks : list nat) : list string * result unit :=
  match masks with
  | [] => ([], Return tt)
  | mask :: masks' =>
      match Calc.row verbose calc mask with
      | Return (params, results) =>
          let (lines, r) := print_rows verbose calc idx_sep sizes masks' in
          (row_line idx_sep sizes params results :: lines, r)
      | Raise e => ([], Raise e)
      | Undefined => ([], Undefined)
      end
  end.

Definition print_table (verbose : bool) (calc : Calculator)
  : list string * result unit :=
  let (indices, exprs) := Calc.expr verbose calc in
  let idx_sep := List.length (variables (parser calc)) in
  let sizes := column_sizes indices exprs in
  let top :=
    [border idx_sep sizes;
     heading str idx_sep indices sizes;
     heading (fun e : string => e) idx_sep exprs sizes;
     border idx_sep sizes] in
  let limit := Nat.shiftl 1 idx_sep in
  let (lines, r) := print_rows verbose calc idx_sep sizes (seq 0 limit) in
  match r with
  | Return _ => (top ++ lines ++ [border idx_sep sizes], Return tt)
  | _ => (top ++ lines, r)
  end.

(** The exceptions the pipeline can raise on [txt]: an invalid character
    with its offset, or a syntax error that expects a factor, a closing
    parenthesis or the end of the input, at a position within the text. *)
Definition raised_on (txt : string) (e : Exception) : Prop :=
  (exists c p,
      e = InvalidCharacter c p
      /\ String.get p txt = Some c /\ invalid c = true)
  \/ (exists what p,
        e = InvalidSyntax what p
        /\ p <= String.length txt
        /\ (what = "factor"%string \/ what = RPAREN \/ what = EOF)).

(** The parser reads [txt] and its cursor is within the text. *)
Definition reading (txt : string) (self : Parser) : Prop :=
  text (lexer self) = txt /\ pos (lexer self) <= String.length txt.

Definition rule_raises (I : Parser -> Prop) (R : Exception -> Prop)
  (rule : M AST) : Prop :=
  forall self e, I self -> rule self = Raise e -> R e.

(** Closes a postcondition: the tree, the lookahead token, the measure. *)
Ltac done_with tac :=
  split; [assumption | split; [assumption | tac]].

(** * Properties *)

(** ** Evaluation *)

Lemma index_nth (values : list bool) (i : nat) :
  i < List.length values -> Calc.index values i = Return (nth i values false).
Proof.
  intros H. unfold Calc.index.
  destruct (nth_error values i) eqn:E.
  - now rewrite (nth_error_nth _ _ _ E).
  - apply nth_error_None in E. lia.
Qed.

Lemma result_visit_eval (verbose : bool) (values : list bool) (node : AST) :
  bounded (List.length values) node ->
  forall results,
    Calc.result_visit verbose values node results
    = Return (eval values node,
              results ++ (if verbose
                          then map (eval values) (evaluated_nodes node)
                          else [])).
Proof.
  induction node as [token operator l IHl r IHr | token operator e IHe | token id];
    simpl; intros Hb results.
  - destruct Hb as [Hl Hr].
    rewrite (IHr Hr), (IHl Hl).
    destruct verbose; simpl.
    + now rewrite !map_app, <- !app_assoc.
    + now rewrite !app_nil_r.
  - rewrite (IHe Hb).
    destruct verbose; simpl.
    + now rewrite map_app, <- app_assoc.
    + now rewrite !app_nil_r.
  - rewrite (index_nth _ _ Hb).
    destruct verbose; now rewrite app_nil_r.
Qed.

Lemma evaluated_nodes_internal (node : AST) :
  is_internal node = true ->
  exists init, evaluated_nodes node = init ++ [node].
Proof.
  destruct node as [token operator l r | token operator e | token id];
    simpl; intros H; try discriminate.
  - exists (evaluated_nodes r ++ evaluated_nodes l). now rewrite app_assoc.
  - now exists (evaluated_nodes e).
Qed.

Lemma evaluated_nodes_leaf (node : AST) :
  is_internal node = false -> evaluated_nodes node = [].
Proof. destruct node; simpl; intros H; now try discriminate. Qed.

(** ** Assignments *)

Lemma bit_of_mask (mask i : nat) :
  negb (Nat.land (Nat.shiftr mask i) 1 =? 0) = Nat.testbit mask i.
Proof.
  change 1 with (Nat.ones 1) at 1.
  rewrite Nat.land_ones, Nat.pow_1_r, Nat.testbit_odd.
  rewrite <- Nat.bit0_odd, Nat.bit0_eqb.
  pose proof (Nat.mod_upper_bound (Nat.shiftr mask i) 2 ltac:(lia)) as H.
  destruct (Nat.shiftr mask i mod 2) as [| [| k]]; simpl; try reflexivity; lia.
Qed.

Lemma assignment_testbit (n mask : nat) :
  Calc.assignment n mask = map (Nat.testbit mask) (seq 0 n).
Proof.
  unfold Calc.assignment. apply map_ext. intros i. apply bit_of_mask.
Qed.

Lemma assignment_length (n mask : nat) :
  List.length (Calc.assignment n mask) = n.
Proof. unfold Calc.assignment. now rewrite length_map, length_seq. Qed.

Lemma assignment_nth (n mask i : nat) :
  i < n -> nth_error (Calc.assignment n mask) i = Some (Nat.testbit mask i).
Proof.
  intros H. rewrite assignment_testbit.
  rewrite nth_error_map, nth_error_seq.
  destruct (Nat.ltb_spec i n); [reflexivity | lia].
Qed.

Lemma assignment_succ (n mask : nat) :
  Calc.assignment (S n) mask
  = Nat.testbit mask 0 :: Calc.assignment n (mask / 2).
Proof.
  rewrite !assignment_testbit.
  change (seq 0 (S n)) with (0 :: seq 1 n).
  rewrite map_cons. f_equal.
  rewrite <- seq_shift, map_map. apply map_ext. intros i.
  now rewrite Nat.div2_bits.
Qed.

Lemma mask_of_assignment (n : nat) :
  forall mask, mask < 2 ^ n -> mask_of (Calc.assignment n mask) = mask.
Proof.
  induction n as [| n IH]; intros mask H.
  - simpl in *. unfold Calc.assignment. simpl. lia.
  - rewrite assignment_succ.
    change (mask_of (Nat.testbit mask 0 :: Calc.assignment n (mask / 2)))
      with (Nat.b2n (Nat.testbit mask 0)
            + 2 * mask_of (Calc.assignment n (mask / 2))).
    rewrite Nat.pow_succ_r' in H.
    rewrite IH.
    + rewrite Nat.bit0_mod. pose proof (Nat.div_mod_eq mask 2). lia.
    + apply Nat.Div0.div_lt_upper_bound. lia.
Qed.

(** ** Rows *)

Lemma row_eval (verbose : bool) (self : Calculator) (mask : nat) :
  let n := List.length (variables (parser self)) in
  let values := Calc.assignment n mask in
  bounded n (tree self) ->
  Calc.row verbose self mask
  = Return (values,
            if verbose && is_internal (tree self)
            then map (eval values) (evaluated_nodes (tree self))
            else [eval values (tree self)]).
Proof.
  intros n values Hb. unfold Calc.row. fold n. fold values.
  rewrite result_visit_eval by (unfold values; now rewrite assignment_length).
  destruct verbose; simpl.
  - destruct (is_internal (tree self)) eqn:E.
    + destruct (evaluated_nodes_internal _ E) as [init ->].
      rewrite map_app. simpl.
      destruct (map (eval values) init); reflexivity.
    + now rewrite (evaluated_nodes_leaf _ E).
  - reflexivity.
Qed.

Lemma rows_map (verbose : bool) (self : Calculator)
  (f : nat -> list bool * list bool) (masks : list nat) :
  (forall mask, In mask masks -> Calc.row verbose self mask = Return (f mask)) ->
  Calc.rows verbose self masks = Return (map f masks).
Proof.
  induction masks as [| mask masks IH]; simpl; intros H.
  - reflexivity.
  - rewrite (H mask) by now left.
    rewrite IH; [reflexivity |]. intros m Hm. apply H. now right.
Qed.

Lemma result_table (verbose : bool) (self : Calculator) :
  let n := List.length (variables (parser self)) in
  bounded n (tree self) ->
  Calc.result verbose self
  = Return (map (table_row verbose self) (seq 0 (2 ^ n))).
Proof.
  intros n Hb. unfold Calc.result. fold n. rewrite Nat.shiftl_1_l.
  apply rows_map. intros mask _. now apply row_eval.
Qed.

(** ** Lexer *)

Lemma get_Some_lt (s : string) :
  forall n c, String.get n s = Some c -> n < String.length s.
Proof.
  induction s as [| a s IH]; intros [| n] c H; simpl in *;
    try discriminate; try lia.
  apply IH in H. lia.
Qed.

Lemma get_None_ge (s : string) :
  forall n, String.get n s = None -> String.length s <= n.
Proof.
  induction s as [| a s IH]; intros [| n] H; simpl in *;
    try discriminate; try lia.
  apply IH in H. lia.
Qed.

Lemma skip_whitespaces_spec (budget : nat) (text : string) :
  forall pos,
    let p := Lex.skip_whitespaces budget text pos in
    pos <= p
    /\ (forall j, pos <= j < p ->
                  exists c, String.get j text = Some c /\ isspace c = true)
    /\ (String.length text <= budget + pos ->
        forall c, String.get p text = Some c -> isspace c = false).
Proof.
  induction budget as [| budget IH]; intros pos; simpl.
  - repeat split; try lia.
    intros H c Hc. apply get_Some_lt in Hc. lia.
  - destruct (String.get pos text) as [c |] eqn:E.
    + destruct (isspace c) eqn:Ec.
      * destruct (IH (S pos)) as (H1 & H2 & H3).
        repeat split; try lia.
        -- intros j Hj. destruct (Nat.eq_dec j pos) as [-> | Hne].
           ++ now exists c.
           ++ apply H2. lia.
        -- intros H. apply H3. lia.
      * repeat split; try lia. intros _ c' Hc'. congruence.
    + repeat split; try lia. intros _ c' Hc'. congruence.
Qed.

Lemma read_variable_spec (budget : nat) (text : string) :
  forall pos variable p,
    Lex.read_variable budget text pos = (variable, p) ->
    pos <= p
    /\ (pos <= String.length text -> p <= String.length text)
    /\ (forall j, pos <= j < p ->
                  exists c, String.get j text = Some c /\ isalnum c = true)
    /\ (0 < budget ->
        (exists c, String.get pos text = Some c /\ isalnum c = true) ->
        pos < p).
Proof.
  induction budget as [| budget IH]; intros pos variable p; simpl.
  - intros [= <- <-]. repeat split; try lia.
  - destruct (String.get pos text) as [c |] eqn:E.
    + destruct (isalnum c) eqn:Ec.
      * destruct (Lex.read_variable budget text (S pos)) as [v p'] eqn:Er.
        intros [= <- <-].
        destruct (IH _ _ _ Er) as (H1 & H2 & H3 & _).
        apply get_Some_lt in E as Hlt.
        repeat split; try lia.
        intros j Hj. destruct (Nat.eq_dec j pos) as [-> | Hne].
        -- now exists c.
        -- apply H3. lia.
      * intros [= <- <-]. repeat split; try lia.
        intros _ (c' & Hc' & Ha). congruence.
    + intros [= <- <-]. repeat split; try lia.
      intros _ (c' & Hc' & _). congruence.
Qed.

(** The budget [length text] lets the loop run to the end of the run of
    alphanumeric characters. *)
Lemma read_variable_maximal (budget : nat) (txt : string) :
  forall p variable p',
    Lex.read_variable budget txt p = (variable, p') ->
    String.length txt <= budget + p ->
    forall c, String.get p' txt = Some c -> isalnum c = false.
Proof.
  induction budget as [| budget IH]; intros p variable p'; simpl.
  - intros [= <- <-] H c Hc. apply get_Some_lt in Hc. lia.
  - destruct (String.get p txt) as [d |] eqn:E.
    + destruct (isalnum d) eqn:Ed.
      * destruct (Lex.read_variable budget txt (S p)) as [v q] eqn:Er.
        intros [= <- <-] H. apply (IH _ _ _ Er). lia.
      * intros [= <- <-] _ c Hc. congruence.
    + intros [= <- <-] _ c Hc. congruence.
Qed.

Lemma get_next_token_defined (self : Lexer) :
  Lex.get_next_token self <> Undefined.
Proof.
  unfold Lex.get_next_token.
  destruct (String.get _ _) as [c |]; [| discriminate].
  destruct (char_in c SINGLE_CHARACTER_TOKENS); [discriminate |].
  destruct (isalnum c); [| discriminate].
  destruct (Lex.read_variable _ _ _). discriminate.
Qed.

Lemma single_character_type (c : ascii) :
  String c EmptyString <> EOF /\ String c EmptyString <> VAR.
Proof. split; discriminate. Qed.

(** What a returned token tells about the cursor. *)
Lemma get_next_token_spec (self : Lexer) (token : Token) (self' : Lexer) :
  Lex.get_next_token self = Return (token, self') ->
  text self' = text self
  /\ pos self <= pos self'
  /\ token_ok token
  /\ (type token <> EOF ->
      pos self < pos self' /\ pos self' <= String.length (text self)).
Proof.
  unfold Lex.get_next_token.
  destruct (skip_whitespaces_spec (String.length (text self)) (text self)
              (pos self)) as (Hle & _ & _).
  set (p := Lex.skip_whitespaces _ _ _) in *.
  destruct (String.get p (text self)) as [c |] eqn:E.
  - apply get_Some_lt in E as Hlt.
    destruct (char_in c SINGLE_CHARACTER_TOKENS) eqn:Ec.
    + intros [= <- <-]. simpl.
      split; [reflexivity | split; [lia | split]].
      * intros H. simpl in H. now destruct (single_character_type c).
      * intros _. lia.
    + destruct (isalnum c) eqn:Ea; [| discriminate].
      destruct (Lex.read_variable _ _ _) as [v p'] eqn:Er.
      intros [= <- <-]. simpl.
      destruct (read_variable_spec _ _ _ _ _ Er) as (H1 & H2 & _ & H4).
      assert (p < p') by (apply H4; [lia | now exists c]).
      split; [reflexivity | split; [lia | split]].
      * intros _. discriminate.
      * intros _. lia.
  - intros [= <- <-]. simpl.
    split; [reflexivity | split; [lia | split]].
    + intros H. discriminate.
    + intros H. now elim H.
Qed.

Lemma invalid_classes (c : ascii) :
  invalid c = true ->
  isspace c = false /\ char_in c SINGLE_CHARACTER_TOKENS = false
  /\ isalnum c = false.
Proof.
  unfold invalid. intros H.
  apply andb_prop in H as [H H3]. apply andb_prop in H as [H1 H2].
  repeat split; now apply negb_true_iff.
Qed.

Lemma valid_classes (c : ascii) :
  invalid c = false -> isspace c = false ->
  char_in c SINGLE_CHARACTER_TOKENS = true
  \/ (char_in c SINGLE_CHARACTER_TOKENS = false /\ isalnum c = true).
Proof.
  unfold invalid. intros H Hs. rewrite Hs in H.
  destruct (char_in c SINGLE_CHARACTER_TOKENS) eqn:E1; [now left |].
  right. destruct (isalnum c) eqn:E2; [now split | discriminate H].
Qed.

Lemma tokens_unfold (budget : nat) (self : Lexer) :
  Lex.tokens (S budget) self
  = match Lex.get_next_token self with
    | Return (token, self') =>
        if String.eqb (type token) EOF then Return [token]
        else match Lex.tokens budget self' with
             | Return rest => Return (token :: rest)
             | Raise e => Raise e
             | Undefined => Undefined
             end
    | Raise e => Raise e
    | Undefined => Undefined
    end.
Proof. reflexivity. Qed.

(** Draining the lexer stops at the first character no token starts with. *)
Lemma tokens_first_invalid (txt : string) (i : nat) (c : ascii) :
  String.get i txt = Some c ->
  invalid c = true ->
  (forall j d, j < i -> String.get j txt = Some d -> invalid d = false) ->
  forall budget p,
    p <= i -> i - p < budget ->
    Lex.tokens budget (mkLexer txt p) = Raise (InvalidCharacter c i).
Proof.
  intros Hget Hinv Hfirst.
  destruct (invalid_classes _ Hinv) as (Hs & Hc & Ha).
  apply get_Some_lt in Hget as Hlen.
  induction budget as [| budget IH]; intros p Hp Hb; [lia |].
  rewrite tokens_unfold. unfold Lex.get_next_token. cbn [text pos].
  destruct (skip_whitespaces_spec (String.length txt) txt p)
    as (Hle & Hspaces & Hstop).
  set (q := Lex.skip_whitespaces _ _ _) in *.
  assert (Hq : q <= i).
  { destruct (Nat.le_gt_cases q i) as [H | H]; [exact H |].
    destruct (Hspaces i ltac:(lia)) as (c' & Hc' & Hsp). congruence. }
  destruct (Nat.eq_dec q i) as [-> | Hne].
  - rewrite Hget, Hc, Ha. reflexivity.
  - destruct (String.get q txt) as [d |] eqn:Ed.
    2:{ apply get_None_ge in Ed. lia. }
    assert (Hd : invalid d = false) by (apply (Hfirst q); [lia | exact Ed]).
    assert (Hds : isspace d = false) by (apply Hstop; [lia | reflexivity]).
    destruct (valid_classes _ Hd Hds) as [Hsingle | [Hsingle Halnum]].
    + rewrite Hsingle. cbn [type].
      destruct (single_character_type d) as [Hne' _].
      apply String.eqb_neq in Hne'. rewrite Hne'.
      rewrite (IH (S q)) by lia. reflexivity.
    + rewrite Hsingle, Halnum.
      destruct (Lex.read_variable _ _ _) as [v p'] eqn:Er.
      destruct (read_variable_spec _ _ _ _ _ Er) as (H1 & _ & H3 & H4).
      assert (q < p') by (apply H4; [lia | now exists d]).
      assert (p' <= i).
      { destruct (Nat.le_gt_cases p' i) as [H' | H']; [exact H' |].
        destruct (H3 i ltac:(lia)) as (c' & Hc' & Hal). congruence. }
      cbn [type]. change (String.eqb VAR EOF) with false. cbv iota.
      rewrite (IH p') by lia. reflexivity.
Qed.

(** Draining the lexer never uses up its budget. *)
Lemma tokens_defined (txt : string) :
  forall budget p,
    String.length txt - p < budget ->
    Lex.tokens budget (mkLexer txt p) <> Undefined.
Proof.
  induction budget as [| budget IH]; intros p Hb; [lia |].
  rewrite tokens_unfold.
  pose proof (get_next_token_defined (mkLexer txt p)) as Hd.
  destruct (Lex.get_next_token (mkLexer txt p)) as [[token self'] | e |] eqn:E;
    [| discriminate | now elim Hd].
  apply get_next_token_spec in E as (Htext & _ & _ & Hlt).
  destruct (String.eqb_spec (type token) EOF) as [Heof | Heof];
    [discriminate |].
  specialize (Hlt Heof). simpl in *.
  destruct self' as [txt' p']. simpl in *. subst txt'.
  specialize (IH p' ltac:(lia)).
  destruct (Lex.tokens budget (mkLexer txt p')); congruence.
Qed.

Lemma tokenize_defined (txt : string) : Lex.tokenize txt <> Undefined.
Proof. unfold Lex.tokenize, Lex.init. apply tokens_defined. lia. Qed.

Lemma least_witness (P : nat -> bool) :
  forall n, P n = true ->
  exists m, P m = true /\ forall j, j < m -> P j = false.
Proof.
  intros n. induction n as [n IH] using (well_founded_induction lt_wf).
  intros Hn.
  destruct (existsb P (seq 0 n)) eqn:E.
  - apply existsb_exists in E as (k & Hk & HPk).
    apply in_seq in Hk. apply (IH k); [lia | exact HPk].
  - exists n. split; [exact Hn |]. intros j Hj.
    destruct (P j) eqn:Ej; [| reflexivity].
    assert (existsb P (seq 0 n) = true).
    { apply existsb_exists. exists j. split; [apply in_seq; lia | exact Ej]. }
    congruence.
Qed.

(** ** The dictionary of variables *)

Lemma dict_get_app (key : string) (d d' : dict) :
  dict_get key (d ++ d')
  = match dict_get key d with
    | Some v => Some v
    | None => dict_get key d'
    end.
Proof.
  induction d as [| [k v] d IH]; simpl; [reflexivity |].
  destruct (String.eqb k key); [reflexivity | exact IH].
Qed.

Lemma dict_get_In (key : string) (d : dict) (v : nat) :
  dict_get key d = Some v -> In (key, v) d.
Proof.
  induction d as [| [k w] d IH]; simpl; [discriminate |].
  destruct (String.eqb_spec k key) as [-> | Hne].
  - intros [= ->]. now left.
  - intros H. right. now apply IH.
Qed.

Lemma dict_get_None (key : string) (d : dict) :
  dict_get key d = None <-> ~ In key (keys d).
Proof.
  induction d as [| [k w] d IH]; simpl.
  - tauto.
  - destruct (String.eqb_spec k key) as [-> | Hne].
    + split; [discriminate | intros H; elim H; now left].
    + rewrite IH. tauto.
Qed.

Lemma setdefault_spec (name : string) (d : dict) :
  let (id, d') := setdefault name (List.length d) d in
  dict_get name d' = Some id
  /\ (exists extra, d' = d ++ extra)
  /\ (forall key, In key (keys d') <-> In key (keys d) \/ key = name)
  /\ (dict_ok d -> dict_ok d').
Proof.
  unfold setdefault.
  destruct (dict_get name d) as [v |] eqn:E.
  - split; [exact E |].
    split; [exists []; now rewrite app_nil_r |].
    split; [| tauto].
    intros key. split; [tauto |].
    intros [H | ->]; [exact H |].
    apply dict_get_In in E. now apply (in_map fst) in E.
  - split; [rewrite dict_get_app, E; simpl; now rewrite String.eqb_refl |].
    split; [now eexists |].
    split.
    + intros key. unfold keys. rewrite map_app, in_app_iff. simpl.
      intuition.
    + intros [H1 H2]. split.
      * rewrite map_app, length_app, H1. simpl.
        rewrite Nat.add_1_r, seq_S. reflexivity.
      * unfold keys. rewrite map_app. simpl.
        apply NoDup_app; [exact H2 | | ].
        -- constructor; [intros [] | constructor].
        -- intros k Hk [<- | []]. now apply dict_get_None in E.
Qed.

Lemma register_name_get (d : dict) (name : string) :
  exists id, dict_get name (register_name d name) = Some id.
Proof.
  unfold register_name.
  pose proof (setdefault_spec name d) as H.
  destruct (setdefault name (List.length d) d) as [id d'].
  exists id. apply H.
Qed.

Lemma register_name_extends (d : dict) (name : string) :
  exists extra, register_name d name = d ++ extra.
Proof.
  unfold register_name.
  pose proof (setdefault_spec name d) as H.
  destruct (setdefault name (List.length d) d) as [id d']. apply H.
Qed.

Lemma register_all_extends (names : list string) :
  forall d, exists extra, register_all names d = d ++ extra.
Proof.
  induction names as [| name names IH]; intros d; simpl.
  - exists []. now rewrite app_nil_r.
  - destruct (register_name_extends d name) as [e1 ->].
    destruct (IH (d ++ e1)) as [e2 ->].
    exists (e1 ++ e2). now rewrite app_assoc.
Qed.

Lemma register_all_app (names names' : list string) (d : dict) :
  register_all (names ++ names') d
  = register_all names' (register_all names d).
Proof. apply fold_left_app. Qed.

Lemma register_all_keys (names : list string) :
  forall d key,
    In key (keys (register_all names d)) <-> In key (keys d) \/ In key names.
Proof.
  induction names as [| name names IH]; intros d key; simpl.
  - tauto.
  - rewrite IH. unfold register_name.
    pose proof (setdefault_spec name d) as H.
    destruct (setdefault name (List.length d) d) as [id d']. simpl.
    destruct H as (_ & _ & H & _). rewrite H. intuition.
Qed.

Lemma register_all_ok (names : list string) :
  forall d, dict_ok d -> dict_ok (register_all names d).
Proof.
  induction names as [| name names IH]; intros d Hd; simpl; [exact Hd |].
  apply IH. unfold register_name.
  pose proof (setdefault_spec name d) as H.
  destruct (setdefault name (List.length d) d) as [id d']. now apply H.
Qed.

Lemma dict_get_extends (key : string) (d extra : dict) (v : nat) :
  dict_get key d = Some v -> dict_get key (d ++ extra) = Some v.
Proof. intros H. now rewrite dict_get_app, H. Qed.

Lemma registered_extends (d extra : dict) (node : AST) :
  registered d node -> registered (d ++ extra) node.
Proof.
  unfold registered. apply Forall_impl. intros leaf.
  apply dict_get_extends.
Qed.

Lemma dict_ok_get_lt (d : dict) (key : string) (v : nat) :
  dict_ok d -> dict_get key d = Some v -> v < List.length d.
Proof.
  intros [H _] Hget. apply dict_get_In in Hget.
  apply (in_map snd) in Hget. rewrite H in Hget. simpl in Hget.
  apply in_seq in Hget. lia.
Qed.

Lemma registered_bounded (d : dict) (node : AST) :
  dict_ok d -> registered d node -> bounded (List.length d) node.
Proof.
  intros Hd. unfold registered.
  induction node as [token operator l IHl r IHr | token operator e IHe | token id];
    simpl; intros H.
  - apply Forall_app in H as [Hl Hr]. split; auto.
  - auto.
  - apply Forall_inv in H. simpl in H. now apply dict_ok_get_lt in H.
Qed.

(** ** Parser: one step of each rule *)

Lemma bind_Return {A B : Type} (m : M A) (k : A -> M B) (self : Parser)
  (b : B) (self'' : Parser) :
  bind m k self = Return (b, self'') ->
  exists a self', m self = Return (a, self') /\ k a self' = Return (b, self'').
Proof.
  unfold bind. destruct (m self) as [[a self'] | e |]; try discriminate.
  intros H. now exists a, self'.
Qed.

Lemma factor_unfold (fuel : nat) :
  Parse.factor (S fuel)
  = (token <- Parse.get_current_token ;;
     if String.eqb (type token) NOT then
       Parse.eat_token NOT ;;;
       node <- Parse.factor fuel ;;
       ret (UnaryOperator token not_ node)
     else if String.eqb (type token) VAR then
       Parse.eat_token VAR ;;;
       id <- Parse.register token ;;
       ret (Variable_ token id)
     else if String.eqb (type token) LPAREN then
       Parse.eat_token LPAREN ;;;
       node <- Parse.expr_OR fuel ;;
       Parse.eat_token RPAREN ;;;
       ret node
     else Parse.raise_syntax "factor").
Proof. reflexivity. Qed.

Lemma expr_AND_unfold (fuel : nat) :
  Parse.expr_AND (S fuel)
  = (node <- Parse.factor fuel ;; Parse.expr_AND_while fuel node).
Proof. reflexivity. Qed.

Lemma expr_AND_while_unfold (fuel : nat) (node : AST) :
  Parse.expr_AND_while (S fuel) node
  = (token <- Parse.get_current_token ;;
     if String.eqb (type token) AND then
       Parse.eat_token AND ;;;
       right <- Parse.factor fuel ;;
       Parse.expr_AND_while fuel (BinaryOperator token and_ node right)
     else ret node).
Proof. reflexivity. Qed.

Lemma expr_XOR_unfold (fuel : nat) :
  Parse.expr_XOR (S fuel)
  = (node <- Parse.expr_AND fuel ;; Parse.expr_XOR_while fuel node).
Proof. reflexivity. Qed.

Lemma expr_XOR_while_unfold (fuel : nat) (node : AST) :
  Parse.expr_XOR_while (S fuel) node
  = (token <- Parse.get_current_token ;;
     if String.eqb (type token) XOR then
       Parse.eat_token XOR ;;;
       right <- Parse.expr_AND fuel ;;
       Parse.expr_XOR_while fuel (BinaryOperator token xor node right)
     else ret node).
Proof. reflexivity. Qed.

Lemma expr_OR_unfold (fuel : nat) :
  Parse.expr_OR (S fuel)
  = (node <- Parse.expr_XOR fuel ;; Parse.expr_OR_while fuel node).
Proof. reflexivity. Qed.

Lemma expr_OR_while_unfold (fuel : nat) (node : AST) :
  Parse.expr_OR_while (S fuel) node
  = (token <- Parse.get_current_token ;;
     if String.eqb (type token) OR then
       Parse.eat_token OR ;;;
       right <- Parse.expr_XOR fuel ;;
       Parse.expr_OR_while fuel (BinaryOperator token or_ node right)
     else ret node).
Proof. reflexivity. Qed.

Lemma eat_token_Return (token_type : string) (self : Parser) (u : unit)
  (self' : Parser) :
  Parse.eat_token token_type self = Return (u, self') ->
  type (current_token self) = token_type
  /\ variables self' = variables self
  /\ Lex.get_next_token (lexer self)
     = Return (current_token self', lexer self').
Proof.
  unfold Parse.eat_token.
  destruct (String.eqb_spec (type (current_token self)) token_type) as [E | E];
    simpl; [| discriminate].
  destruct (Lex.get_next_token (lexer self)) as [[token lexer'] | e |];
    try discriminate.
  intros [= _ <-]. simpl. auto.
Qed.

Lemma eat_token_mismatch (token_type : string) (self : Parser) :
  type (current_token self) <> token_type ->
  Parse.eat_token token_type self
  = Raise (InvalidSyntax token_type (pos (lexer self))).
Proof.
  intros H. unfold Parse.eat_token.
  apply String.eqb_neq in H. now rewrite H.
Qed.

Lemma register_Return (token : Token) (self : Parser) (id : nat)
  (self' : Parser) :
  Parse.register token self = Return (id, self') ->
  exists name,
    value token = Some name
    /\ setdefault name (List.length (variables self)) (variables self)
       = (id, variables self')
    /\ lexer self' = lexer self
    /\ current_token self' = current_token self.
Proof.
  unfold Parse.register. destruct (value token) as [name |]; [| discriminate].
  destruct (setdefault name _ _) as [id' d'] eqn:E.
  intros [= <- <-]. exists name. simpl. auto.
Qed.

(** ** Parser: the tree and the dictionary *)

Lemma built_variable (token : Token) (self self' : Parser) (id : nat) :
  Parse.register token self = Return (id, self') ->
  built (variables self) (Variable_ token id) (variables self').
Proof.
  intros H. apply register_Return in H as (name & Hv & Hs & _).
  pose proof (setdefault_spec name (variables self)) as Hspec.
  rewrite Hs in Hspec. destruct Hspec as (Hget & _).
  unfold built, named, registered, leaf_names, leaf_name, register_all,
    register_name. simpl. rewrite Hv. simpl. rewrite Hs. simpl.
  repeat split.
  - constructor; [simpl; congruence | constructor].
  - constructor; [simpl; now rewrite Hv | constructor].
Qed.

Lemma built_unary (token : Token) (operator : bool -> bool) (node : AST)
  (d d' : dict) :
  built d node d' -> built d (UnaryOperator token operator node) d'.
Proof. intros H. exact H. Qed.

Lemma built_binary (token : Token) (operator : bool -> bool -> bool)
  (l r : AST) (d0 d1 d2 : dict) :
  built d0 l d1 -> built d1 r d2 ->
  built d0 (BinaryOperator token operator l r) d2.
Proof.
  intros (Hn1 & He1 & Hr1) (Hn2 & He2 & Hr2).
  unfold built, named, registered, leaf_names in *. simpl.
  repeat split.
  - apply Forall_app. now split.
  - rewrite map_app, register_all_app. now rewrite <- He1.
  - apply Forall_app. split; [| exact Hr2].
    destruct (register_all_extends (map leaf_name (leaves r)) d1) as [e He].
    rewrite He2, He. now apply registered_extends.
Qed.

(** ** Parser: every rule ends, reads tokens and registers its leaves *)

Lemma outcome_bind {A B : Type} (m : M A) (k : A -> M B) (self : Parser)
  (R : B -> Parser -> Prop) :
  outcome (m self) (fun a self' => outcome (k a self') R) ->
  outcome (bind m k self) R.
Proof.
  unfold bind. destruct (m self) as [[a self'] | e |]; simpl; auto.
Qed.

Lemma outcome_weaken {A : Type} (r : result (A * Parser))
  (Q Q' : A -> Parser -> Prop) :
  outcome r Q -> (forall a self', Q a self' -> Q' a self') -> outcome r Q'.
Proof. destruct r as [[a self'] | e |]; simpl; auto. Qed.

Lemma outcome_Return {A : Type} (r : result (A * Parser))
  (Q : A -> Parser -> Prop) (a : A) (self' : Parser) :
  outcome r Q -> r = Return (a, self') -> Q a self'.
Proof. intros H ->. exact H. Qed.

Lemma outcome_defined {A : Type} (r : result (A * Parser))
  (Q : A -> Parser -> Prop) :
  outcome r Q -> r <> Undefined.
Proof. intros H ->. exact H. Qed.

Lemma eat_token_spec (token_type : string) (self : Parser) :
  outcome (Parse.eat_token token_type self)
    (fun _ self' =>
       type (current_token self) = token_type
       /\ variables self' = variables self
       /\ token_ok (current_token self')
       /\ remaining self' <= remaining self
       /\ (token_type <> EOF -> remaining self' < remaining self)).
Proof.
  destruct (Parse.eat_token token_type self) as [[u self'] | e |] eqn:E;
    simpl; auto.
  - apply eat_token_Return in E as (Ht & Hv & Hl).
    apply get_next_token_spec in Hl as (Htext & Hpos & Hok & Hlt).
    unfold remaining. rewrite Htext, Ht.
    repeat split; auto.
    + destruct (String.eqb_spec (type (current_token self')) EOF) as [E1 | E1];
        destruct (String.eqb token_type EOF); try lia;
        specialize (Hlt E1); lia.
    + intros Hne. apply String.eqb_neq in Hne. rewrite Hne.
      destruct (String.eqb_spec (type (current_token self')) EOF) as [E1 | E1];
        try lia. specialize (Hlt E1). lia.
  - unfold Parse.eat_token in E.
    destruct (negb _); [discriminate |].
    pose proof (get_next_token_defined (lexer self)) as Hd.
    destruct (Lex.get_next_token (lexer self)) as [[t l] | e |];
      try discriminate. now elim Hd.
Qed.

Lemma register_spec (token : Token) (self : Parser) :
  value token <> None ->
  outcome (Parse.register token self)
    (fun id self' =>
       built (variables self) (Variable_ token id) (variables self')
       /\ lexer self' = lexer self
       /\ current_token self' = current_token self).
Proof.
  intros Hv.
  destruct (Parse.register token self) as [[id self'] | e |] eqn:E; simpl; auto.
  - split; [now apply built_variable |].
    apply register_Return in E as (name & _ & _ & H1 & H2). now split.
  - unfold Parse.register in E.
    destruct (value token); [| now elim Hv].
    destruct (setdefault _ _ _). discriminate.
Qed.

Lemma seq_spec (k1 k fuel : nat) (first : M AST) (rest : AST -> M AST) :
  rule_spec k1 fuel first -> loop_spec fuel rest -> k1 + 1 <= k ->
  rule_spec k (S fuel) (node <- first ;; rest node).
Proof.
  intros Hfirst Hrest Hk self Hok Hfuel.
  apply outcome_bind.
  apply (outcome_weaken _ _ _ (Hfirst self Hok ltac:(lia))).
  intros node self1 (Hbuilt & Hok1 & Hlt).
  apply (outcome_weaken _ _ _
           (Hrest (variables self) node self1 Hok1 ltac:(lia) Hbuilt)).
  intros node' self2 (Hbuilt' & Hok2 & Hle).
  done_with lia.
Qed.

Lemma while_spec (token_type : string) (operator : bool -> bool -> bool)
  (k1 fuel : nat) (operand : M AST) (rest : AST -> M AST) :
  token_type <> EOF ->
  rule_spec k1 fuel operand -> loop_spec fuel rest -> k1 <= 3 ->
  loop_spec (S fuel)
    (fun node =>
       token <- Parse.get_current_token ;;
       if String.eqb (type token) token_type then
         Parse.eat_token token_type ;;;
         right <- operand ;;
         rest (BinaryOperator token operator node right)
       else ret node).
Proof.
  intros Hty Hoperand Hrest Hk d0 node0 self Hok Hfuel Hbuilt.
  apply outcome_bind. simpl.
  destruct (String.eqb (type (current_token self)) token_type).
  - apply outcome_bind.
    apply (outcome_weaken _ _ _ (eat_token_spec token_type self)).
    intros _ self1 (_ & Hv1 & Hok1 & _ & Hlt1). specialize (Hlt1 Hty).
    apply outcome_bind.
    apply (outcome_weaken _ _ _ (Hoperand self1 Hok1 ltac:(lia))).
    intros right self2 (Hbuilt2 & Hok2 & Hlt2).
    rewrite Hv1 in Hbuilt2.
    apply (outcome_weaken _ _ _
             (Hrest d0 _ self2 Hok2 ltac:(lia)
                (built_binary (current_token self) operator _ _ _ _ _
                   Hbuilt Hbuilt2))).
    intros node' self3 (Hbuilt3 & Hok3 & Hle3).
    done_with lia.
  - simpl. done_with lia.
Qed.

Lemma factor_spec (fuel : nat) :
  rule_spec 1 fuel (Parse.factor fuel) ->
  rule_spec 4 fuel (Parse.expr_OR fuel) ->
  rule_spec 1 (S fuel) (Parse.factor (S fuel)).
Proof.
  intros Hfactor Hor self Hok Hfuel.
  rewrite factor_unfold.
  apply outcome_bind. simpl.
  destruct (String.eqb_spec (type (current_token self)) NOT) as [E1 | E1].
  - apply outcome_bind.
    apply (outcome_weaken _ _ _ (eat_token_spec NOT self)).
    intros _ self1 (_ & Hv1 & Hok1 & _ & Hlt1).
    specialize (Hlt1 ltac:(discriminate)).
    apply outcome_bind.
    apply (outcome_weaken _ _ _ (Hfactor self1 Hok1 ltac:(lia))).
    intros node self2 (Hbuilt2 & Hok2 & Hlt2). simpl.
    rewrite Hv1 in Hbuilt2.
    done_with lia.
  - destruct (String.eqb_spec (type (current_token self)) VAR) as [E2 | E2].
    + apply outcome_bind.
      apply (outcome_weaken _ _ _ (eat_token_spec VAR self)).
      intros _ self1 (_ & Hv1 & Hok1 & _ & Hlt1).
      specialize (Hlt1 ltac:(discriminate)).
      apply outcome_bind.
      apply (outcome_weaken _ _ _
               (register_spec (current_token self) self1 (Hok E2))).
      intros id self2 (Hbuilt2 & Hlexer & Htoken). simpl.
      rewrite Hv1 in Hbuilt2.
      unfold remaining in *. rewrite Hlexer, Htoken.
      done_with lia.
    + destruct (String.eqb_spec (type (current_token self)) LPAREN)
        as [E3 | E3].
      * apply outcome_bind.
        apply (outcome_weaken _ _ _ (eat_token_spec LPAREN self)).
        intros _ self1 (_ & Hv1 & Hok1 & _ & Hlt1).
        specialize (Hlt1 ltac:(discriminate)).
        apply outcome_bind.
        apply (outcome_weaken _ _ _ (Hor self1 Hok1 ltac:(lia))).
        intros node self2 (Hbuilt2 & Hok2 & Hlt2).
        apply outcome_bind.
        apply (outcome_weaken _ _ _ (eat_token_spec RPAREN self2)).
        intros _ self3 (_ & Hv3 & Hok3 & Hle3 & _). simpl.
        rewrite Hv1 in Hbuilt2. rewrite Hv3.
        done_with lia.
      * exact I.
Qed.

(** The seven mutually recursive functions, by induction on the fuel. *)
Lemma grammar_spec (fuel : nat) :
  rule_spec 1 fuel (Parse.factor fuel)
  /\ rule_spec 2 fuel (Parse.expr_AND fuel)
  /\ loop_spec fuel (Parse.expr_AND_while fuel)
  /\ rule_spec 3 fuel (Parse.expr_XOR fuel)
  /\ loop_spec fuel (Parse.expr_XOR_while fuel)
  /\ rule_spec 4 fuel (Parse.expr_OR fuel)
  /\ loop_spec fuel (Parse.expr_OR_while fuel).
Proof.
  induction fuel as [| fuel (Hf & Ha & Haw & Hx & Hxw & Ho & How)].
  - repeat split; intros ?; intros; lia.
  - repeat split.
    + now apply factor_spec.
    + rewrite expr_AND_unfold. apply (seq_spec 1); [assumption .. | lia].
    + intros d0 node0 self. rewrite expr_AND_while_unfold.
      exact (while_spec AND and_ 1 fuel _ _ ltac:(discriminate) Hf Haw
               ltac:(lia) d0 node0 self).
    + rewrite expr_XOR_unfold. apply (seq_spec 2); [assumption .. | lia].
    + intros d0 node0 self. rewrite expr_XOR_while_unfold.
      exact (while_spec XOR xor 2 fuel _ _ ltac:(discriminate) Ha Hxw
               ltac:(lia) d0 node0 self).
    + rewrite expr_OR_unfold. apply (seq_spec 3); [assumption .. | lia].
    + intros d0 node0 self. rewrite expr_OR_while_unfold.
      exact (while_spec OR or_ 3 fuel _ _ ltac:(discriminate) Hx How
               ltac:(lia) d0 node0 self).
Qed.

(** ** The whole pipeline *)

Lemma parse_spec (fuel : nat) (self : Parser) :
  token_ok (current_token self) ->
  4 * remaining self + 4 <= fuel ->
  outcome (Parse.parse fuel self)
    (fun node self' => built (variables self) node (variables self')).
Proof.
  intros Hok Hfuel. unfold Parse.parse, Parse.expr.
  destruct (grammar_spec fuel) as (_ & _ & _ & _ & _ & Hor & _).
  apply outcome_bind.
  apply (outcome_weaken _ _ _ (Hor self Hok Hfuel)).
  intros node self1 (Hbuilt & _ & _).
  apply outcome_bind.
  apply (outcome_weaken _ _ _ (eat_token_spec EOF self1)).
  intros _ self2 (_ & Hv & _). simpl. now rewrite Hv.
Qed.

Lemma init_spec (txt : string) :
  match Parse.init (Lex.init txt) with
  | Return self =>
      variables self = [] /\ token_ok (current_token self)
      /\ remaining self <= String.length txt + 1
  | Raise _ => True
  | Undefined => False
  end.
Proof.
  unfold Parse.init.
  pose proof (get_next_token_defined (Lex.init txt)) as Hd.
  destruct (Lex.get_next_token (Lex.init txt)) as [[token lexer'] | e |] eqn:E;
    [| exact I | now elim Hd].
  apply get_next_token_spec in E as (Htext & _ & Hok & _).
  unfold remaining. simpl in *. rewrite Htext.
  repeat split; auto.
  destruct (String.eqb (type token) EOF); lia.
Qed.

(** The pipeline always ends, and a calculator it returns holds a tree
    whose leaves are registered in its dictionary, which starts empty. *)
Lemma calculator_spec (txt : string) :
  match calculator txt with
  | Return calc => built [] (tree calc) (variables (parser calc))
  | Raise _ => True
  | Undefined => False
  end.
Proof.
  unfold calculator, Calc.init.
  pose proof (init_spec txt) as Hinit.
  destruct (Parse.init (Lex.init txt)) as [self | e |]; auto.
  destruct Hinit as (Hv & Hok & Hrem).
  assert (Hfuel : 4 * remaining self + 4 <= Parse.enough txt)
    by (unfold Parse.enough; lia).
  pose proof (parse_spec _ _ Hok Hfuel) as H.
  destruct (Parse.parse (Parse.enough txt) self) as [[node self'] | e |];
    simpl in *; auto.
  now rewrite <- Hv.
Qed.

Lemma calculator_defined (txt : string) : calculator txt <> Undefined.
Proof.
  pose proof (calculator_spec txt) as H. intros E. now rewrite E in H.
Qed.

Lemma calculator_built (txt : string) (calc : Calculator) :
  calculator txt = Return calc ->
  built [] (tree calc) (variables (parser calc)).
Proof. intros E. pose proof (calculator_spec txt) as H. now rewrite E in H. Qed.

Lemma dict_ok_nil : dict_ok [].
Proof. split; [reflexivity | constructor]. Qed.

Lemma calculator_dict_ok (txt : string) (calc : Calculator) :
  calculator txt = Return calc -> dict_ok (variables (parser calc)).
Proof.
  intros E. destruct (calculator_built _ _ E) as (_ & -> & _).
  apply register_all_ok, dict_ok_nil.
Qed.

Lemma calculator_bounded (txt : string) (calc : Calculator) :
  calculator txt = Return calc ->
  bounded (List.length (variables (parser calc))) (tree calc).
Proof.
  intros E. apply registered_bounded.
  - now apply (calculator_dict_ok txt).
  - now destruct (calculator_built _ _ E) as (_ & _ & H).
Qed.

Lemma calculator_keys (txt : string) (calc : Calculator) (name : string) :
  calculator txt = Return calc ->
  In name (keys (variables (parser calc))) <-> In name (leaf_names (tree calc)).
Proof.
  intros E. destruct (calculator_built _ _ E) as (_ & -> & _).
  rewrite register_all_keys. simpl. tauto.
Qed.

(** ** Labels *)

Lemma expr_visit_numbered (names : list string) (node : AST) :
  forall labels,
    Calc.expr_visit node (names ++ labels)
    = (fst (numbered_labels (List.length names) node labels),
       names ++ snd (numbered_labels (List.length names) node labels)).
Proof.
  induction node as [token operator l IHl r IHr | token operator e IHe | token id];
    intros labels; simpl.
  - rewrite IHl.
    destruct (numbered_labels (List.length names) l labels) as [s1 labels1].
    simpl. rewrite IHr.
    destruct (numbered_labels (List.length names) r labels1) as [s2 labels2].
    simpl. unfold Calc.reference.
    now rewrite <- app_assoc, (length_app names).
  - rewrite IHe.
    destruct (numbered_labels (List.length names) e labels) as [s1 labels1].
    simpl. unfold Calc.reference.
    now rewrite <- app_assoc, (length_app names).
  - reflexivity.
Qed.

Lemma numbered_labels_length (base : nat) (node : AST) :
  forall labels,
    List.length (snd (numbered_labels base node labels))
    = List.length labels + List.length (labelled_nodes node).
Proof.
  induction node as [token operator l IHl r IHr | token operator e IHe | token id];
    intros labels; simpl.
  - specialize (IHl labels).
    destruct (numbered_labels base l labels) as [s1 labels1].
    specialize (IHr labels1).
    destruct (numbered_labels base r labels1) as [s2 labels2].
    simpl in *. rewrite !length_app. simpl. lia.
  - specialize (IHe labels).
    destruct (numbered_labels base e labels) as [s1 labels1].
    simpl in *. rewrite !length_app. simpl. lia.
  - lia.
Qed.

Lemma labelled_nodes_internal (node : AST) :
  is_internal node = true -> 0 < List.length (labelled_nodes node).
Proof.
  destruct node; simpl; intros H; try discriminate;
    rewrite !length_app; simpl; lia.
Qed.

(** The verbose labels of a tree with an internal node. *)
Lemma verbose_labels (self : Calculator) :
  is_internal (tree self) = true ->
  let names := keys (variables (parser self)) in
  snd (Calc.expr true self)
  = names ++ snd (numbered_labels (List.length names) (tree self) []).
Proof.
  intros Hint names. unfold Calc.expr. fold names. cbv iota. cbn [snd].
  pose proof (expr_visit_numbered names (tree self) []) as H.
  rewrite app_nil_r in H. rewrite H. cbn [snd].
  rewrite length_app, numbered_labels_length.
  pose proof (labelled_nodes_internal _ Hint).
  destruct (Nat.eqb_spec (List.length names)
              (List.length names
               + (List.length (@nil string)
                  + List.length (labelled_nodes (tree self)))));
    [simpl in *; lia | reflexivity].
Qed.

(** ** The tables of the module docstring *)

Example docstring_example_1 :
  exists calc,
    calculator "!a" = Return calc
    /\ Calc.expr true calc = ([1; 2], ["a"; "! a"]%string)
    /\ Calc.expr false calc = ([1; 2], ["a"; "[result]"]%string)
    /\ Calc.result true calc
       = Return [([false], [true]); ([true], [false])].
Proof.
  eexists. split; [vm_compute; reflexivity |].
  repeat split; vm_compute; reflexivity.
Qed.

Example docstring_example_2 :
  exists calc,
    calculator "a & (b | !a)" = Return calc
    /\ Calc.expr true calc
       = ([1; 2; 3; 4; 5], ["a"; "b"; "! a"; "b | [3]"; "a & [4]"]%string)
    /\ Calc.result true calc
       = Return [([false; false], [true; true; false]);
                 ([true; false], [false; false; false]);
                 ([false; true], [true; true; false]);
                 ([true; true], [false; true; true])].
Proof.
  eexists. split; [vm_compute; reflexivity |].
  repeat split; vm_compute; reflexivity.
Qed.

Example docstring_example_3 :
  exists calc,
    calculator "a & b | !a" = Return calc
    /\ Calc.expr true calc
       = ([1; 2; 3; 4; 5], ["a"; "b"; "a & b"; "! a"; "[3] | [4]"]%string)
    /\ Calc.result true calc
       = Return [([false; false], [true; false; true]);
                 ([true; false], [false; false; false]);
                 ([false; true], [true; false; true]);
                 ([true; true], [false; true; true])].
Proof.
  eexists. split; [vm_compute; reflexivity |].
  repeat split; vm_compute; reflexivity.
Qed.

(** * The claims *)

(** C1 (the code departs from it).  Verbose results are meant to line up
    with the verbose labels position by position.  For ["a & b | !a"] the
    labels after the variable columns are ["a & b"], ["! a"], ["[3] | [4]"],
    in the order of [labelled_nodes]; under [a = 0, b = 0] these nodes have
    the values [false], [true], [true], yet the row holds [true], [false],
    [true]: the right operand is visited first, so the first result belongs
    to ["! a"] and not to ["a & b"]. *)
Theorem results_follow_right_operand_first :
  exists calc,
    calculator "a & b | !a" = Return calc
    /\ snd (Calc.expr true calc) = ["a"; "b"; "a & b"; "! a"; "[3] | [4]"]%string
    /\ map (eval [false; false]) (labelled_nodes (tree calc))
       = [false; true; true]
    /\ Calc.row true calc 0 = Return ([false; false], [true; false; true])
    /\ map (eval [false; false]) (evaluated_nodes (tree calc))
       = [true; false; true].
Proof.
  eexists. split; [vm_compute; reflexivity |].
  repeat split; vm_compute; reflexivity.
Qed.

(** C2.  For every text that parses, with [N] entries in the dictionary
    (one per distinct variable name of the tree), evaluating all
    assignments returns exactly [2 ^ N] rows; the row at position [mask]
    is the assignment of [mask], so masks ascend strictly; and the value of
    the variable with id [i] in that row is bit [i] of [mask]. *)
Theorem evaluate_all_assignments (txt : string) (calc : Calculator)
  (verbose : bool) :
  calculator txt = Return calc ->
  let names := keys (variables (parser calc)) in
  let N := List.length (variables (parser calc)) in
  NoDup names
  /\ (forall name, In name names <-> In name (leaf_names (tree calc)))
  /\ exists rows,
       Calc.result verbose calc = Return rows
       /\ List.length rows = 2 ^ N
       /\ map (fun row => mask_of (fst row)) rows = seq 0 (2 ^ N)
       /\ forall mask i, mask < 2 ^ N -> i < N ->
            exists row, nth_error rows mask = Some row
                        /\ nth_error (fst row) i = Some (Nat.testbit mask i).
Proof.
  intros E names N.
  split; [apply (calculator_dict_ok _ _ E) |].
  split; [intros name; now apply (calculator_keys txt) |].
  exists (map (table_row verbose calc) (seq 0 (2 ^ N))).
  split; [apply result_table, (calculator_bounded _ _ E) |].
  split; [now rewrite length_map, length_seq |].
  split.
  - rewrite map_map. rewrite <- (map_id (seq 0 (2 ^ N))) at 2.
    apply map_ext_in. intros mask Hmask. apply in_seq in Hmask.
    unfold table_row. cbn [fst]. apply mask_of_assignment. unfold N in *. lia.
  - intros mask i Hmask Hi.
    exists (table_row verbose calc mask). split.
    + rewrite nth_error_map, nth_error_seq.
      destruct (Nat.ltb_spec mask (2 ^ N)); [reflexivity | lia].
    + unfold table_row. cbn [fst]. now apply assignment_nth.
Qed.

Lemma evaluate_all_assignments_witness :
  exists calc rows,
    calculator "a & (b | !a)" = Return calc
    /\ Calc.result true calc = Return rows
    /\ List.length rows = 4
    /\ map (fun row => mask_of (fst row)) rows = [0; 1; 2; 3].
Proof.
  destruct (calculator "a & (b | !a)") as [calc | e |] eqn:E;
    [| vm_compute in E; discriminate E ..].
  destruct (evaluate_all_assignments _ _ true E)
    as (_ & _ & rows & Hrows & Hlen & Hmasks & _).
  exists calc, rows.
  assert (HN : List.length (variables (parser calc)) = 2)
    by (vm_compute in E; injection E as <-; reflexivity).
  rewrite HN in Hlen, Hmasks.
  repeat split; assumption.
Defined.

(** C3 (as stated it fails).  If the bracketed reference counted
    internal-node labels only, the verbose labels of ["a & (b | !a)"] would
    refer to ["! a"] as [[1]]; the code emits [[3]]. *)
Lemma reference_is_not_internal_rank :
  exists calc,
    calculator "a & (b | !a)" = Return calc
    /\ snd (numbered_labels 0 (tree calc) [])
       = ["! a"; "b | [1]"; "a & [2]"]%string
    /\ snd (Calc.expr true calc)
       <> keys (variables (parser calc))
          ++ snd (numbered_labels 0 (tree calc) []).
Proof.
  eexists. split; [vm_compute; reflexivity |].
  split; [vm_compute; reflexivity |].
  vm_compute. discriminate.
Qed.

(** C3 (amended).  In verbose label generation the bracketed reference [k]
    emitted for an internal node is the number of variable names plus the
    1-based rank of the node among the internal-node labels in emission
    order: it is the 1-based position of the node's label in the whole
    label list, variable columns included. *)
Theorem reference_counts_variables_too (calc : Calculator) :
  is_internal (tree calc) = true ->
  let names := keys (variables (parser calc)) in
  snd (Calc.expr true calc)
  = names ++ snd (numbered_labels (List.length names) (tree calc) []).
Proof. apply verbose_labels. Qed.

Lemma reference_counts_variables_too_witness :
  exists calc,
    calculator "a & (b | !a)" = Return calc
    /\ is_internal (tree calc) = true
    /\ snd (Calc.expr true calc)
       = keys (variables (parser calc))
         ++ snd (numbered_labels (List.length (keys (variables (parser calc))))
                   (tree calc) []).
Proof.
  destruct (calculator "a & (b | !a)") as [calc | e |] eqn:E;
    [| vm_compute in E; discriminate E ..].
  assert (H : is_internal (tree calc) = true)
    by (vm_compute in E; injection E as <-; reflexivity).
  exists calc. split; [reflexivity |]. split; [exact H |].
  apply (reference_counts_variables_too calc H).
Defined.

(** C4.  For ["a & (b | !a)"] the verbose labels after the two variable
    columns are ["! a"], ["b | [3]"], ["a & [4]"], and in the row of
    [a = 1, b = 1] (mask 3) the results are 0, 1, 1 in that order. *)
Theorem example_nested_or :
  exists calc,
    calculator "a & (b | !a)" = Return calc
    /\ firstn 2 (snd (Calc.expr true calc)) = ["a"; "b"]%string
    /\ skipn 2 (snd (Calc.expr true calc))
       = ["! a"; "b | [3]"; "a & [4]"]%string
    /\ Calc.row true calc 3 = Return ([true; true], [false; true; true])
    /\ (exists rows, Calc.result true calc = Return rows
                     /\ nth_error rows 3
                        = Some ([true; true], [false; true; true])).
Proof.
  eexists. split; [vm_compute; reflexivity |].
  repeat split; try (vm_compute; reflexivity).
  eexists. split; vm_compute; reflexivity.
Qed.

(** C5.  ["a & b | !a"] is parsed as [(a & b) | (!a)]: the tree is the one
    of the parenthesised text, under every assignment it evaluates to
    [(a && b) || negb a], and its table differs from the one of
    ["a & (b | (!a))"], for instance at [a = 0, b = 0]. *)
Theorem and_binds_tighter_than_or :
  exists calc grouped other,
    calculator "a & b | !a" = Return calc
    /\ calculator "(a & b) | (!a)" = Return grouped
    /\ calculator "a & (b | (!a))" = Return other
    /\ tree calc = tree grouped
    /\ (forall a b,
          Calc.row false calc (mask_of [a; b])
          = Return ([a; b], [(a && b) || negb a]))
    /\ Calc.result false calc = Calc.result false grouped
    /\ Calc.result false calc <> Calc.result false other
    /\ (exists a b,
          Calc.row false calc (mask_of [a; b])
          <> Calc.row false other (mask_of [a; b])
          /\ Calc.row false calc (mask_of [a; b])
             <> Return ([a; b], [a && (b || negb a)])).
Proof.
  eexists. eexists. eexists.
  split; [vm_compute; reflexivity |].
  split; [vm_compute; reflexivity |].
  split; [vm_compute; reflexivity |].
  split; [reflexivity |].
  split; [intros [] []; vm_compute; reflexivity |].
  split; [vm_compute; reflexivity |].
  split; [vm_compute; discriminate |].
  exists false, false. split; vm_compute; discriminate.
Qed.

(** C6.  ["a & b & c"] folds to the left: the tree is the one of
    ["(a & b) & c"], under every assignment it evaluates to
    [(a && b) && c], and the verbose labels hold exactly two internal-node
    labels after the three variable names. *)
Theorem and_folds_left :
  exists calc grouped,
    calculator "a & b & c" = Return calc
    /\ calculator "(a & b) & c" = Return grouped
    /\ tree calc = tree grouped
    /\ (forall a b c,
          Calc.row false calc (mask_of [a; b; c])
          = Return ([a; b; c], [(a && b) && c]))
    /\ Calc.result false calc = Calc.result false grouped
    /\ snd (Calc.expr true calc)
       = ["a"; "b"; "c"; "a & b"; "[4] & c"]%string
    /\ List.length (labelled_nodes (tree calc)) = 2
    /\ List.length (snd (Calc.expr true calc))
       = List.length (variables (parser calc)) + 2.
Proof.
  eexists. eexists.
  split; [vm_compute; reflexivity |].
  split; [vm_compute; reflexivity |].
  split; [reflexivity |].
  split; [intros [] [] []; vm_compute; reflexivity |].
  repeat split; vm_compute; reflexivity.
Qed.

(** C7.  For every text that parses and every assignment row, the single
    boolean of the non-verbose row is the last element of the verbose row
    of the same mask. *)
Theorem plain_result_is_last_verbose (txt : string) (calc : Calculator) :
  calculator txt = Return calc ->
  let N := List.length (variables (parser calc)) in
  exists plain detailed,
    Calc.result false calc = Return plain
    /\ Calc.result true calc = Return detailed
    /\ List.length plain = 2 ^ N
    /\ List.length detailed = 2 ^ N
    /\ forall mask, mask < 2 ^ N ->
         exists values r init,
           nth_error plain mask = Some (values, [r])
           /\ nth_error detailed mask = Some (values, init ++ [r]).
Proof.
  intros E N.
  pose proof (calculator_bounded _ _ E) as Hb.
  exists (map (table_row false calc) (seq 0 (2 ^ N))),
         (map (table_row true calc) (seq 0 (2 ^ N))).
  split; [now apply result_table |].
  split; [now apply result_table |].
  split; [now rewrite length_map, length_seq |].
  split; [now rewrite length_map, length_seq |].
  intros mask Hmask.
  set (values := Calc.assignment N mask).
  assert (Hnth : forall verbose,
             nth_error (map (table_row verbose calc) (seq 0 (2 ^ N))) mask
             = Some (table_row verbose calc mask)).
  { intros verbose. rewrite nth_error_map, nth_error_seq.
    destruct (Nat.ltb_spec mask (2 ^ N)); [reflexivity | lia]. }
  exists values, (eval values (tree calc)).
  destruct (is_internal (tree calc)) eqn:Hint.
  - destruct (evaluated_nodes_internal _ Hint) as [init Hinit].
    exists (map (eval values) init).
    rewrite !Hnth. unfold table_row. fold N. fold values.
    rewrite Hint, Hinit, map_app. simpl. now split.
  - exists []. rewrite !Hnth. unfold table_row. fold N. fold values.
    rewrite Hint. simpl. now split.
Qed.

Lemma plain_result_is_last_verbose_witness :
  exists calc plain detailed,
    calculator "a & b | !a" = Return calc
    /\ Calc.result false calc = Return plain
    /\ Calc.result true calc = Return detailed
    /\ List.length plain = List.length detailed.
Proof.
  destruct (calculator "a & b | !a") as [calc | e |] eqn:E;
    [| vm_compute in E; discriminate E ..].
  destruct (plain_result_is_last_verbose _ _ E)
    as (plain & detailed & H1 & H2 & H3 & H4 & _).
  exists calc, plain, detailed.
  repeat split; try assumption. now rewrite H3, H4.
Defined.

(** C8 (as stated it fails).  The exception carries the expected kind and
    the cursor of the lexer.  For ["a b"] the token that does not match is
    [b], a variable token that starts at offset 2; the exception names
    neither its kind nor that offset, its position is 3. *)
Lemma syntax_error_offset_is_cursor :
  Lex.get_next_token (mkLexer "a b" 1)
  = Return (mkToken VAR (Some "b"), mkLexer "a b" 3)
  /\ token_offset (mkLexer "a b" 1) = 2
  /\ calculator "a b" = Raise (InvalidSyntax EOF 3)
  /\ calculator "a b"
     <> Raise (InvalidSyntax EOF (token_offset (mkLexer "a b" 1)))
  /\ message (InvalidSyntax EOF 3)
     = ("Invalid syntax, expected `EOF` in pos=3" ++ newline)%string.
Proof.
  repeat split; try (vm_compute; reflexivity).
  vm_compute. discriminate.
Qed.

(** C8 (amended).  Parsing raises an exception that carries the expected
    kind and the lexer's cursor (the offset just after the lookahead
    token, the length of the text at end of input) whenever the lookahead
    token does not match the grammar rule: in [eat_token], in [factor], and
    for a token that follows a complete expression.  ["a &"] raises
    "expected factor" at 3 and ["(a"] raises "expected )" at 2; what is
    raised is an exception, never a tree. *)
Theorem syntax_error_on_mismatch :
  (forall token_type self,
      type (current_token self) <> token_type ->
      Parse.eat_token token_type self
      = Raise (InvalidSyntax token_type (pos (lexer self))))
  /\ (forall fuel self,
         type (current_token self) <> NOT ->
         type (current_token self) <> VAR ->
         type (current_token self) <> LPAREN ->
         Parse.factor (S fuel) self
         = Raise (InvalidSyntax "factor" (pos (lexer self))))
  /\ (forall fuel self node self',
         Parse.expr_OR fuel self = Return (node, self') ->
         type (current_token self') <> EOF ->
         Parse.parse fuel self
         = Raise (InvalidSyntax EOF (pos (lexer self'))))
  /\ calculator "a &" = Raise (InvalidSyntax "factor" 3)
  /\ calculator "(a" = Raise (InvalidSyntax RPAREN 2)
  /\ calculator "a b" = Raise (InvalidSyntax EOF 3)
  /\ calculator "a )" = Raise (InvalidSyntax EOF 3).
Proof.
  split; [exact eat_token_mismatch |].
  split.
  { intros fuel self H1 H2 H3. rewrite factor_unfold.
    unfold bind, Parse.get_current_token.
    apply String.eqb_neq in H1, H2, H3. now rewrite H1, H2, H3. }
  split.
  { intros fuel self node self' H Hne.
    unfold Parse.parse, Parse.expr, bind. rewrite H.
    now rewrite eat_token_mismatch. }
  repeat split; vm_compute; reflexivity.
Qed.

Lemma syntax_error_on_mismatch_witness :
  Parse.eat_token RPAREN (mkParser (mkLexer "(a" 2) (mkToken EOF None) [])
  = Raise (InvalidSyntax RPAREN 2)
  /\ Parse.factor 1 (mkParser (mkLexer "a &" 3) (mkToken EOF None) [])
     = Raise (InvalidSyntax "factor" 3).
Proof.
  destruct syntax_error_on_mismatch as (Heat & Hfactor & _).
  split.
  - apply (Heat RPAREN
             (mkParser (mkLexer "(a" 2) (mkToken EOF None) [])).
    discriminate.
  - apply (Hfactor 0
             (mkParser (mkLexer "a &" 3) (mkToken EOF None) []));
      discriminate.
Defined.

(** C9.  For every text with a character that is not whitespace, not one
    of [( ) ! & ^ |] and not alphanumeric, draining the lexer raises the
    invalid-character exception with the first such character and its
    offset in the text. *)
Theorem lex_error_at_invalid_character (txt : string) :
  (exists i c, String.get i txt = Some c /\ invalid c = true) ->
  exists i c,
    String.get i txt = Some c
    /\ isspace c = false
    /\ char_in c SINGLE_CHARACTER_TOKENS = false
    /\ isalnum c = false
    /\ (forall j d, j < i -> String.get j txt = Some d -> invalid d = false)
    /\ Lex.tokenize txt = Raise (InvalidCharacter c i)
    /\ Lex.get_next_token (mkLexer txt i) = Raise (InvalidCharacter c i).
Proof.
  intros (i0 & c0 & Hget0 & Hinv0).
  destruct (least_witness (invalid_at txt) i0) as (i & Hi & Hleast).
  { unfold invalid_at. now rewrite Hget0. }
  unfold invalid_at in Hi.
  destruct (String.get i txt) as [c |] eqn:Hget; [| discriminate].
  assert (Hfirst : forall j d,
             j < i -> String.get j txt = Some d -> invalid d = false).
  { intros j d Hj Hd. specialize (Hleast j Hj).
    unfold invalid_at in Hleast. now rewrite Hd in Hleast. }
  destruct (invalid_classes _ Hi) as (Hs & Hc & Ha).
  apply get_Some_lt in Hget as Hlen.
  exists i, c. repeat split; auto.
  - unfold Lex.tokenize, Lex.init.
    apply tokens_first_invalid; auto; lia.
  - pose proof (tokens_first_invalid txt i c Hget Hi Hfirst 1 i
                  (Nat.le_refl i) ltac:(lia)) as H.
    rewrite tokens_unfold in H.
    destruct (Lex.get_next_token (mkLexer txt i)) as [[t l] | e |];
      try discriminate.
    + destruct (String.eqb (type t) EOF); discriminate.
    + now injection H as ->.
Qed.

Lemma lex_error_at_invalid_character_witness :
  exists i c,
    String.get i "a # b" = Some c
    /\ Lex.tokenize "a # b" = Raise (InvalidCharacter c i)
    /\ calculator "a # b" = Raise (InvalidCharacter "#" 2).
Proof.
  destruct (lex_error_at_invalid_character "a # b")
    as (i & c & H1 & _ & _ & _ & _ & H2 & _).
  - exists 2, "#"%char. split; reflexivity.
  - exists i, c.
    split; [exact H1 | split; [exact H2 | vm_compute; reflexivity]].
Defined.

(** C10 (as stated it fails).  For the bare variable ["a"] the verbose
    labels are the name twice and a verbose row holds one boolean, so the
    label list has as many entries as there are variables and results in
    a row together: it is not strictly longer. *)
Lemma bare_variable_labels_not_longer :
  exists calc,
    calculator "a" = Return calc
    /\ snd (Calc.expr true calc) = ["a"; "a"]%string
    /\ Calc.row true calc 0 = Return ([false], [false])
    /\ Calc.row true calc 1 = Return ([true], [true])
    /\ ~ (List.length (snd (Calc.expr true calc))
          > List.length (variables (parser calc)) + List.length [false]).
Proof.
  eexists. split; [vm_compute; reflexivity |].
  repeat split; try (vm_compute; reflexivity).
  vm_compute. lia.
Qed.

(** C10 (amended).  For a text parsed to a single bare variable (no
    internal node) there is one variable, verbose describe returns the
    variable-name list duplicated (two labels for one variable), and each
    verbose results row contains exactly one boolean; so the verbose label
    list has exactly as many entries as the number of variables plus the
    results per row. *)
Theorem bare_variable_labels (txt : string) (calc : Calculator) :
  calculator txt = Return calc ->
  is_internal (tree calc) = false ->
  let names := keys (variables (parser calc)) in
  List.length names = 1
  /\ snd (Calc.expr true calc) = names ++ names
  /\ (forall mask, exists values r,
         Calc.row true calc mask = Return (values, [r])
         /\ List.length values = 1)
  /\ List.length (snd (Calc.expr true calc)) = List.length names + 1.
Proof.
  intros E Hleaf names.
  pose proof (calculator_bounded _ _ E) as Hb.
  destruct (calculator_built _ _ E) as (_ & Hvars & _).
  assert (Hnames : List.length names = 1).
  { unfold names. rewrite Hvars.
    destruct (tree calc); try discriminate. reflexivity. }
  assert (Hlabels : snd (Calc.expr true calc) = names ++ names).
  { unfold Calc.expr. fold names.
    destruct (tree calc); try discriminate. simpl.
    now rewrite Nat.eqb_refl. }
  split; [exact Hnames |].
  split; [exact Hlabels |].
  split.
  - intros mask.
    exists (Calc.assignment (List.length (variables (parser calc))) mask),
           (eval (Calc.assignment (List.length (variables (parser calc))) mask)
              (tree calc)).
    split.
    + rewrite row_eval by exact Hb. now rewrite Hleaf.
    + rewrite assignment_length. unfold names, keys in Hnames.
      now rewrite length_map in Hnames.
  - rewrite Hlabels, length_app. lia.
Qed.

Lemma bare_variable_labels_witness :
  exists calc,
    calculator "(abc)" = Return calc
    /\ is_internal (tree calc) = false
    /\ snd (Calc.expr true calc)
       = keys (variables (parser calc)) ++ keys (variables (parser calc)).
Proof.
  destruct (calculator "(abc)") as [calc | e |] eqn:E;
    [| vm_compute in E; discriminate E ..].
  assert (H : is_internal (tree calc) = false)
    by (vm_compute in E; injection E as <-; reflexivity).
  exists calc. split; [reflexivity |]. split; [exact H |].
  apply (bare_variable_labels _ _ E H).
Defined.

(** * Further properties of the code *)

(** ** Lexer: cursor, end of input, whitespace, variables *)

Lemma skip_whitespaces_at_end (budget : nat) (txt : string) (p : nat) :
  String.get p txt = None -> Lex.skip_whitespaces budget txt p = p.
Proof. intros H. destruct budget; simpl; [reflexivity | now rewrite H]. Qed.

Lemma skip_whitespaces_bounded (budget : nat) (txt : string) (p : nat) :
  p <= String.length txt ->
  Lex.skip_whitespaces budget txt p <= String.length txt.
Proof.
  intros Hp.
  destruct (skip_whitespaces_spec budget txt p) as (Hle & Hspaces & _).
  set (q := Lex.skip_whitespaces budget txt p) in *.
  destruct (Nat.eq_dec q p) as [-> | Hne]; [exact Hp |].
  destruct (Hspaces (q - 1) ltac:(lia)) as (c & Hc & _).
  apply get_Some_lt in Hc. lia.
Qed.

(** Any two budgets that reach the end of the text skip the same run. *)
Lemma skip_whitespaces_budget (txt : string) :
  forall b b' p,
    String.length txt <= b + p -> String.length txt <= b' + p ->
    Lex.skip_whitespaces b txt p = Lex.skip_whitespaces b' txt p.
Proof.
  induction b as [| b IH]; intros b' p H H'.
  - destruct (String.get p txt) as [c |] eqn:E.
    + apply get_Some_lt in E. simpl in H. lia.
    + now rewrite !skip_whitespaces_at_end.
  - destruct b' as [| b'].
    + destruct (String.get p txt) as [c |] eqn:E.
      * apply get_Some_lt in E. simpl in H'. lia.
      * now rewrite !skip_whitespaces_at_end.
    + simpl. destruct (String.get p txt) as [c |]; [| reflexivity].
      destruct (isspace c); [| reflexivity]. apply IH; lia.
Qed.

Lemma skip_whitespaces_run (txt : string) :
  forall n b p,
    (forall j, p <= j < p + n ->
               exists c, String.get j txt = Some c /\ isspace c = true) ->
    Lex.skip_whitespaces (n + b) txt p = Lex.skip_whitespaces b txt (p + n).
Proof.
  induction n as [| n IH]; intros b p H.
  - now rewrite Nat.add_0_r.
  - destruct (H p ltac:(lia)) as (c & Hc & Hs).
    simpl. rewrite Hc, Hs.
    rewrite IH; [f_equal; lia |].
    intros j Hj. apply H. lia.
Qed.

(** X1.  At the end of the input the lexer keeps producing [EOF]: once
    [get_next_token] has returned the [EOF] token, calling it again on the
    lexer it left returns the same token and leaves the cursor where it
    is. *)
Theorem eof_is_repeated (self : Lexer) (token : Token) (self' : Lexer) :
  Lex.get_next_token self = Return (token, self') ->
  type token = EOF ->
  Lex.get_next_token self' = Return (token, self').
Proof.
  unfold Lex.get_next_token.
  set (q := Lex.skip_whitespaces _ _ _).
  destruct (String.get q (text self)) as [c |] eqn:E.
  - destruct (char_in c SINGLE_CHARACTER_TOKENS).
    + intros [= <- <-] H. simpl in H.
      now destruct (single_character_type c).
    + destruct (isalnum c); [| discriminate].
      destruct (Lex.read_variable _ _ _).
      intros [= <- <-] H. discriminate H.
  - intros [= <- <-] _. cbn [text pos].
    rewrite (skip_whitespaces_at_end _ _ _ E). now rewrite E.
Qed.

Lemma eof_is_repeated_witness :
  Lex.get_next_token (mkLexer "ab  " 4)
  = Return (mkToken EOF None, mkLexer "ab  " 4).
Proof.
  apply (eof_is_repeated (mkLexer "ab  " 2)); reflexivity.
Defined.

(** X2.  A returned token moves the cursor forward only, never past the
    end of the text; a token other than [EOF] consumes at least one
    character, and [EOF] is returned only with the cursor at the end. *)
Theorem cursor_advances (self : Lexer) (token : Token) (self' : Lexer) :
  Lex.get_next_token self = Return (token, self') ->
  pos self <= String.length (text self) ->
  text self' = text self
  /\ pos self <= pos self' <= String.length (text self)
  /\ (type token <> EOF -> pos self < pos self')
  /\ (type token = EOF -> pos self' = String.length (text self)).
Proof.
  intros H Hp.
  destruct (get_next_token_spec _ _ _ H) as (Htext & Hle & _ & Hlt).
  split; [exact Htext |].
  unfold Lex.get_next_token in H.
  pose proof (skip_whitespaces_bounded (String.length (text self))
                (text self) (pos self) Hp) as Hq.
  set (q := Lex.skip_whitespaces _ _ _) in *.
  destruct (String.get q (text self)) as [c |] eqn:E.
  - assert (Hne : type token <> EOF).
    { destruct (char_in c SINGLE_CHARACTER_TOKENS).
      - injection H as <- _. simpl. now destruct (single_character_type c).
      - destruct (isalnum c); [| discriminate].
        destruct (Lex.read_variable _ _ _). injection H as <- _. discriminate. }
    destruct (Hlt Hne). repeat split; try lia. now intros.
  - injection H as <- <-. cbn [pos type].
    apply get_None_ge in E.
    repeat split; try lia. now intros.
Qed.

Lemma cursor_advances_witness :
  pos (mkLexer "a & b" 1) < pos (mkLexer "a & b" 3).
Proof.
  apply (cursor_advances (mkLexer "a & b" 1) (mkToken AND None)
           (mkLexer "a & b" 3));
    [reflexivity | simpl; lia | discriminate].
Defined.

Lemma substring_zero (txt : string) :
  forall p, substring p 0 txt = EmptyString.
Proof.
  induction txt as [| a txt IH]; intros [| p]; simpl; auto.
Qed.

Lemma read_variable_value (budget : nat) (txt : string) :
  forall p variable p',
    Lex.read_variable budget txt p = (variable, p') ->
    p' = p + String.length variable
    /\ variable = substring p (String.length variable) txt.
Proof.
  induction budget as [| budget IH]; intros p variable p'; simpl.
  - intros [= <- <-]. simpl. split; [lia |].
    now rewrite substring_zero.
  - destruct (String.get p txt) as [c |] eqn:E.
    + destruct (isalnum c).
      * destruct (Lex.read_variable budget txt (S p)) as [v q] eqn:Er.
        intros [= <- <-]. destruct (IH _ _ _ Er) as (Hq & Hv).
        simpl. split; [lia |].
        apply get_correct. intros [| n].
        -- simpl. rewrite <- E. symmetry.
           apply (substring_correct1 txt p (S (String.length v)) 0). lia.
        -- simpl.
           destruct (Nat.lt_ge_cases n (String.length v)) as [Hn | Hn].
           ++ rewrite (substring_correct1 txt p (S (String.length v)) (S n))
                by lia.
              rewrite Hv at 1.
              rewrite substring_correct1 by exact Hn. f_equal. lia.
           ++ rewrite (substring_correct2 txt p (S (String.length v)) (S n))
                by lia.
              rewrite Hv. apply substring_correct2. exact Hn.
      * intros [= <- <-]. simpl. split; [lia |].
        now rewrite substring_zero.
    + intros [= <- <-]. simpl. split; [lia |].
      now rewrite substring_zero.
Qed.

(** X3.  A variable token is a maximal run of alphanumeric characters:
    its value is the non-empty substring that starts where the token
    starts and ends at the new cursor, all of its characters are
    alphanumeric, and the character at the new cursor, if any, is not. *)
Theorem variable_is_maximal_run (self : Lexer) (token : Token)
  (self' : Lexer) :
  Lex.get_next_token self = Return (token, self') ->
  type token = VAR ->
  exists name,
    value token = Some name
    /\ 0 < String.length name
    /\ pos self' = token_offset self + String.length name
    /\ name = substring (token_offset self) (String.length name) (text self)
    /\ (forall j, token_offset self <= j < pos self' ->
          exists c, String.get j (text self) = Some c /\ isalnum c = true)
    /\ (forall c, String.get (pos self') (text self) = Some c ->
          isalnum c = false).
Proof.
  unfold Lex.get_next_token, token_offset.
  set (q := Lex.skip_whitespaces _ _ _).
  destruct (String.get q (text self)) as [c |] eqn:E.
  - destruct (char_in c SINGLE_CHARACTER_TOKENS).
    + intros [= <- <-] H. simpl in H. now destruct (single_character_type c).
    + destruct (isalnum c) eqn:Ea; [| discriminate].
      destruct (Lex.read_variable _ _ _) as [v p'] eqn:Er.
      intros [= <- <-] _. cbn [value pos].
      destruct (read_variable_spec _ _ _ _ _ Er) as (_ & _ & H3 & H4).
      destruct (read_variable_value _ _ _ _ _ Er) as (Hp' & Hv).
      apply get_Some_lt in E as Hlt.
      assert (q < p') by (apply H4; [lia | now exists c]).
      exists v. repeat split; try assumption; try lia.
      intros d Hd.
      apply (read_variable_maximal _ _ _ _ _ Er); [lia | exact Hd].
  - intros [= <- <-] H. discriminate H.
Qed.

Lemma variable_is_maximal_run_witness :
  exists name,
    value (mkToken VAR (Some "x1")) = Some name
    /\ 0 < String.length name.
Proof.
  destruct (variable_is_maximal_run (mkLexer "  x1&y" 0)
              (mkToken VAR (Some "x1")) (mkLexer "  x1&y" 4))
    as (name & H1 & H2 & _); [reflexivity | reflexivity |].
  exists name. now split.
Defined.

(** X4.  Whitespace before a token is not significant: from two cursors
    that are separated by whitespace only, the lexer returns the same
    token and the same new cursor, or raises the same exception. *)
Theorem whitespace_is_skipped (txt : string) (p q : nat) :
  p <= q ->
  (forall j, p <= j < q ->
             exists c, String.get j txt = Some c /\ isspace c = true) ->
  Lex.get_next_token (mkLexer txt p) = Lex.get_next_token (mkLexer txt q).
Proof.
  intros Hpq Hspaces.
  destruct (Nat.eq_dec p q) as [<- | Hne]; [reflexivity |].
  assert (Hq : q <= String.length txt).
  { destruct (Hspaces (q - 1) ltac:(lia)) as (c & Hc & _).
    apply get_Some_lt in Hc. lia. }
  assert (Hskip : Lex.skip_whitespaces (String.length txt) txt p
                  = Lex.skip_whitespaces (String.length txt) txt q).
  { replace (String.length txt)
      with ((q - p) + (String.length txt - (q - p))) at 1 by lia.
    rewrite skip_whitespaces_run
      by (intros j Hj; apply Hspaces; lia).
    replace (p + (q - p)) with q by lia.
    apply skip_whitespaces_budget; lia. }
  unfold Lex.get_next_token. cbn [text pos]. now rewrite Hskip.
Qed.

Lemma whitespace_is_skipped_witness :
  Lex.get_next_token (mkLexer "a   | b" 1)
  = Lex.get_next_token (mkLexer "a   | b" 4).
Proof.
  apply whitespace_is_skipped; [lia |].
  intros j Hj.
  assert (H : j = 1 \/ j = 2 \/ j = 3) by lia.
  destruct H as [-> | [-> | ->]]; exists " "%char; split; reflexivity.
Defined.

(** ** Parser: properties kept by every rule *)

Section Kept.

Variable I : Parser -> Prop.
Variable good : AST -> Prop.

Hypothesis I_eat_token :
  forall token_type self u self',
    I self -> Parse.eat_token token_type self = Return (u, self') -> I self'.
Hypothesis I_register :
  forall token self id self',
    I self -> Parse.register token self = Return (id, self') -> I self'.
Hypothesis good_variable :
  forall token id, type token = VAR -> good (Variable_ token id).
Hypothesis good_unary :
  forall token node,
    type token = NOT -> good node -> good (UnaryOperator token not_ node).
Hypothesis good_binary :
  forall token operator l r,
    binary_symbol token operator -> good l -> good r ->
    good (BinaryOperator token operator l r).

Lemma seq_keeps (first : M AST) (rest : AST -> M AST) :
  rule_keeps I good first -> loop_keeps I good rest ->
  rule_keeps I good (node <- first ;; rest node).
Proof.
  intros Hfirst Hrest self node self' HI H.
  apply bind_Return in H as (node1 & self1 & H1 & H2).
  destruct (Hfirst _ _ _ HI H1) as (HI1 & Hg1).
  exact (Hrest _ _ _ _ HI1 Hg1 H2).
Qed.

Lemma while_keeps (token_type : string) (operator : bool -> bool -> bool)
  (operand : M AST) (rest : AST -> M AST) :
  (forall token, type token = token_type -> binary_symbol token operator) ->
  rule_keeps I good operand -> loop_keeps I good rest ->
  loop_keeps I good
    (fun node =>
       token <- Parse.get_current_token ;;
       if String.eqb (type token) token_type then
         Parse.eat_token token_type ;;;
         right <- operand ;;
         rest (BinaryOperator token operator node right)
       else ret node).
Proof.
  intros Hsym Hoperand Hrest node0 self node self' HI Hg0 H.
  apply bind_Return in H as (token & self0 & H0 & H).
  unfold Parse.get_current_token in H0. injection H0 as <- <-.
  destruct (String.eqb_spec (type (current_token self)) token_type)
    as [Hty | Hty].
  - apply bind_Return in H as (u & self1 & H1 & H).
    apply bind_Return in H as (right & self2 & H2 & H).
    pose proof (I_eat_token _ _ _ _ HI H1) as HI1.
    destruct (Hoperand _ _ _ HI1 H2) as (HI2 & Hg2).
    apply (Hrest _ _ _ _ HI2 (good_binary _ _ _ _ (Hsym _ Hty) Hg0 Hg2) H).
  - unfold ret in H. injection H as <- <-. now split.
Qed.

Lemma factor_keeps (fuel : nat) :
  rule_keeps I good (Parse.factor fuel) ->
  rule_keeps I good (Parse.expr_OR fuel) ->
  rule_keeps I good (Parse.factor (S fuel)).
Proof.
  intros Hfactor Hor self node self' HI H.
  rewrite factor_unfold in H.
  apply bind_Return in H as (token & self0 & H0 & H).
  unfold Parse.get_current_token in H0. injection H0 as <- <-.
  destruct (String.eqb_spec (type (current_token self)) NOT) as [E1 | E1].
  - apply bind_Return in H as (u & self1 & H1 & H).
    apply bind_Return in H as (node1 & self2 & H2 & H).
    unfold ret in H. injection H as <- <-.
    pose proof (I_eat_token _ _ _ _ HI H1) as HI1.
    destruct (Hfactor _ _ _ HI1 H2) as (HI2 & Hg2).
    split; [exact HI2 | now apply good_unary].
  - destruct (String.eqb_spec (type (current_token self)) VAR) as [E2 | E2].
    + apply bind_Return in H as (u & self1 & H1 & H).
      apply bind_Return in H as (id & self2 & H2 & H).
      unfold ret in H. injection H as <- <-.
      pose proof (I_eat_token _ _ _ _ HI H1) as HI1.
      split; [exact (I_register _ _ _ _ HI1 H2) | now apply good_variable].
    + destruct (String.eqb_spec (type (current_token self)) LPAREN)
        as [E3 | E3]; [| discriminate H].
      apply bind_Return in H as (u & self1 & H1 & H).
      apply bind_Return in H as (node1 & self2 & H2 & H).
      apply bind_Return in H as (u' & self3 & H3 & H).
      unfold ret in H. injection H as <- <-.
      pose proof (I_eat_token _ _ _ _ HI H1) as HI1.
      destruct (Hor _ _ _ HI1 H2) as (HI2 & Hg2).
      split; [exact (I_eat_token _ _ _ _ HI2 H3) | exact Hg2].
Qed.

Lemma grammar_keeps (fuel : nat) :
  rule_keeps I good (Parse.factor fuel)
  /\ rule_keeps I good (Parse.expr_AND fuel)
  /\ loop_keeps I good (Parse.expr_AND_while fuel)
  /\ rule_keeps I good (Parse.expr_XOR fuel)
  /\ loop_keeps I good (Parse.expr_XOR_while fuel)
  /\ rule_keeps I good (Parse.expr_OR fuel)
  /\ loop_keeps I good (Parse.expr_OR_while fuel).
Proof.
  induction fuel as [| fuel (Hf & Ha & Haw & Hx & Hxw & Ho & How)].
  - unfold rule_keeps, loop_keeps. repeat split; intros; discriminate.
  - split; [now apply factor_keeps |].
    split; [rewrite expr_AND_unfold; now apply seq_keeps |].
    split.
    { intros node0 self. rewrite expr_AND_while_unfold.
      apply (while_keeps AND and_ _ _
               ltac:(intros t Ht; left; now split) Hf Haw node0 self). }
    split; [rewrite expr_XOR_unfold; now apply seq_keeps |].
    split.
    { intros node0 self. rewrite expr_XOR_while_unfold.
      apply (while_keeps XOR xor _ _
               ltac:(intros t Ht; right; left; now split) Ha Hxw node0 self). }
    split; [rewrite expr_OR_unfold; now apply seq_keeps |].
    intros node0 self. rewrite expr_OR_while_unfold.
    apply (while_keeps OR or_ _ _
             ltac:(intros t Ht; right; right; now split) Hx How node0 self).
Qed.

Lemma parse_keeps (fuel : nat) (self : Parser) (node : AST) (self' : Parser) :
  I self -> Parse.parse fuel self = Return (node, self') ->
  good node
  /\ exists self1,
       I self1 /\ type (current_token self1) = EOF
       /\ Parse.eat_token EOF self1 = Return (tt, self').
Proof.
  intros HI H. unfold Parse.parse, Parse.expr in H.
  apply bind_Return in H as (node1 & self1 & H1 & H).
  apply bind_Return in H as (u & self2 & H2 & H).
  unfold ret in H. injection H as <- <-.
  destruct (grammar_keeps fuel) as (_ & _ & _ & _ & _ & Hor & _).
  destruct (Hor _ _ _ HI H1) as (HI1 & Hg).
  split; [exact Hg |].
  exists self1. destruct u.
  apply eat_token_Return in H2 as H2'. destruct H2' as (Hty & _).
  now repeat split.
Qed.

End Kept.

(** ** Parser: the trees it builds *)

Lemma calculator_parse (txt : string) (calc : Calculator) :
  calculator txt = Return calc ->
  exists self,
    Parse.init (Lex.init txt) = Return self
    /\ Parse.parse (Parse.enough txt) self = Return (tree calc, parser calc).
Proof.
  unfold calculator, Calc.init.
  destruct (Parse.init (Lex.init txt)) as [self | e |]; try discriminate.
  destruct (Parse.parse (Parse.enough txt) self) as [[node self'] | e |] eqn:E;
    try discriminate.
  intros [= <-]. now exists self.
Qed.

Lemma parse_well_formed (fuel : nat) (self : Parser) (node : AST)
  (self' : Parser) :
  Parse.parse fuel self = Return (node, self') -> well_formed node.
Proof.
  intros H.
  refine (proj1 (parse_keeps (fun _ => True) well_formed
                   (fun _ _ _ _ _ _ => I) (fun _ _ _ _ _ _ => I)
                   _ _ _ fuel self node self' I H)).
  - intros token id Ht. exact Ht.
  - intros token e Ht He. simpl. auto.
  - intros token operator l r Hs Hl Hr. simpl. auto.
Qed.

(** X5.  In every tree the parser returns, the operator of a node is the
    one its token shows ([&] with [and_], [^] with [xor], [|] with [or_],
    [!] with [not_]) and every leaf holds a variable token: the symbol
    printed in a label is the operation that is evaluated. *)
Theorem parsed_tree_is_well_formed (txt : string) (calc : Calculator) :
  calculator txt = Return calc -> well_formed (tree calc).
Proof.
  intros E. apply calculator_parse in E as (self & _ & Hparse).
  exact (parse_well_formed _ _ _ _ Hparse).
Qed.

Lemma parsed_tree_is_well_formed_witness :
  exists calc,
    calculator "!(a ^ b) | c & a" = Return calc /\ well_formed (tree calc).
Proof.
  destruct (calculator "!(a ^ b) | c & a") as [calc | e |] eqn:E;
    [| vm_compute in E; discriminate E ..].
  exists calc. split; [reflexivity |].
  apply (parsed_tree_is_well_formed _ _ E).
Defined.

Lemma eval_denote (values : list bool) (node : AST) :
  well_formed node -> eval values node = denote values node.
Proof.
  induction node as [token operator l IHl r IHr | token operator e IHe | token id];
    simpl.
  - intros ([(Ht & ->) | [(Ht & ->) | (Ht & ->)]] & Hl & Hr);
      rewrite (IHl Hl), (IHr Hr), Ht; simpl.
    + apply andb_comm.
    + apply xorb_comm.
    + apply orb_comm.
  - intros (_ & -> & He). now rewrite (IHe He).
  - reflexivity.
Qed.

(** X6.  Operands are evaluated right operand first, which does not show
    in the values: for every text that parses, the result of every
    non-verbose row is the value of the expression read in the usual way,
    left operand first, from the symbols of its tokens. *)
Theorem result_is_left_to_right_value (txt : string) (calc : Calculator)
  (mask : nat) :
  calculator txt = Return calc ->
  let values :=
    Calc.assignment (List.length (variables (parser calc))) mask in
  Calc.row false calc mask = Return (values, [denote values (tree calc)]).
Proof.
  intros E values.
  rewrite row_eval by apply (calculator_bounded _ _ E).
  fold values. simpl.
  rewrite eval_denote; [reflexivity |].
  apply calculator_parse in E as (self & _ & Hparse).
  exact (parse_well_formed _ _ _ _ Hparse).
Qed.

Lemma result_is_left_to_right_value_witness :
  exists calc,
    calculator "a ^ b & !c" = Return calc
    /\ Calc.row false calc 5
       = Return (Calc.assignment (List.length (variables (parser calc))) 5,
                 [denote
                    (Calc.assignment (List.length (variables (parser calc))) 5)
                    (tree calc)]).
Proof.
  destruct (calculator "a ^ b & !c") as [calc | e |] eqn:E;
    [| vm_compute in E; discriminate E ..].
  exists calc. split; [reflexivity |].
  apply (result_is_left_to_right_value _ _ 5 E).
Defined.

(** ** Parser: what it has read *)

Lemma invalid_false_space (c : ascii) : isspace c = true -> invalid c = false.
Proof. unfold invalid. now intros ->. Qed.

Lemma invalid_false_single (c : ascii) :
  char_in c SINGLE_CHARACTER_TOKENS = true -> invalid c = false.
Proof. unfold invalid. intros ->. simpl. now rewrite andb_false_r. Qed.

Lemma invalid_false_alnum (c : ascii) : isalnum c = true -> invalid c = false.
Proof. unfold invalid. intros ->. simpl. now rewrite andb_false_r. Qed.

Lemma get_next_token_valid (self : Lexer) (token : Token) (self' : Lexer) :
  Lex.get_next_token self = Return (token, self') ->
  (forall j d, pos self <= j < pos self' ->
               String.get j (text self) = Some d -> invalid d = false)
  /\ (type token = EOF -> String.length (text self) <= pos self').
Proof.
  unfold Lex.get_next_token.
  destruct (skip_whitespaces_spec (String.length (text self)) (text self)
              (pos self)) as (Hle & Hspaces & _).
  set (q := Lex.skip_whitespaces _ _ _) in *.
  assert (Hskipped : forall j d, pos self <= j < q ->
                       String.get j (text self) = Some d -> invalid d = false).
  { intros j d Hj Hd. destruct (Hspaces j Hj) as (c & Hc & Hs).
    rewrite Hd in Hc. injection Hc as ->. now apply invalid_false_space. }
  destruct (String.get q (text self)) as [c |] eqn:E.
  - destruct (char_in c SINGLE_CHARACTER_TOKENS) eqn:Ec.
    + intros [= <- <-]. cbn [pos type]. split.
      * intros j d Hj Hd. destruct (Nat.eq_dec j q) as [-> | Hne].
        -- rewrite Hd in E. injection E as ->.
           now apply invalid_false_single.
        -- apply (Hskipped j); [lia | exact Hd].
      * intros H. now destruct (single_character_type c).
    + destruct (isalnum c) eqn:Ea; [| discriminate].
      destruct (Lex.read_variable _ _ _) as [v p'] eqn:Er.
      intros [= <- <-]. cbn [pos type].
      destruct (read_variable_spec _ _ _ _ _ Er) as (_ & _ & H3 & _).
      split; [| discriminate].
      intros j d Hj Hd. destruct (Nat.lt_ge_cases j q) as [Hlt | Hge].
      * apply (Hskipped j); [lia | exact Hd].
      * destruct (H3 j ltac:(lia)) as (c' & Hc' & Hal).
        rewrite Hd in Hc'. injection Hc' as ->.
        now apply invalid_false_alnum.
  - intros [= <- <-]. cbn [pos type]. split.
    + exact Hskipped.
    + intros _. now apply get_None_ge.
Qed.

Lemma lexed_eat_token (txt token_type : string) (self : Parser) (u : unit)
  (self' : Parser) :
  lexed txt self -> Parse.eat_token token_type self = Return (u, self') ->
  lexed txt self'.
Proof.
  intros (Htext & Hvalid & _) H.
  apply eat_token_Return in H as (_ & _ & Hnext).
  destruct (get_next_token_spec _ _ _ Hnext) as (Htext' & Hle & _).
  destruct (get_next_token_valid _ _ _ Hnext) as (Hnew & Heof).
  rewrite Htext in *.
  split; [congruence |]. split.
  - intros j d Hj Hd.
    destruct (Nat.lt_ge_cases j (pos (lexer self))) as [Hlt | Hge].
    + now apply (Hvalid j).
    + apply (Hnew j); [lia | exact Hd].
  - exact Heof.
Qed.

Lemma lexed_register (txt : string) (token : Token) (self : Parser)
  (id : nat) (self' : Parser) :
  lexed txt self -> Parse.register token self = Return (id, self') ->
  lexed txt self'.
Proof.
  intros H Hr. apply register_Return in Hr as (name & _ & _ & Hl & Ht).
  unfold lexed in *. now rewrite Hl, Ht.
Qed.

Lemma lexed_init (txt : string) (self : Parser) :
  Parse.init (Lex.init txt) = Return self -> lexed txt self.
Proof.
  unfold Parse.init.
  destruct (Lex.get_next_token (Lex.init txt)) as [[token lexer'] | e |] eqn:E;
    try discriminate.
  intros [= <-].
  destruct (get_next_token_spec _ _ _ E) as (Htext & _).
  destruct (get_next_token_valid _ _ _ E) as (Hnew & Heof).
  unfold Lex.init in *. simpl in *.
  split; [exact Htext | split; [| exact Heof]].
  intros j d Hj Hd. simpl in Hj. apply (Hnew j); [lia | exact Hd].
Qed.

Lemma parse_lexed (txt : string) (self : Parser) (node : AST)
  (self' : Parser) :
  Parse.init (Lex.init txt) = Return self ->
  Parse.parse (Parse.enough txt) self = Return (node, self') ->
  exists self1,
    lexed txt self1 /\ type (current_token self1) = EOF
    /\ Parse.eat_token EOF self1 = Return (tt, self').
Proof.
  intros Hinit H.
  exact (proj2 (parse_keeps (lexed txt) (fun _ => True)
                  (lexed_eat_token txt) (lexed_register txt)
                  (fun _ _ _ => I) (fun _ _ _ _ => I)
                  (fun _ _ _ _ _ _ _ => I)
                  _ self node self' (lexed_init _ _ Hinit) H)).
Qed.

(** X7.  A text is accepted only when all of it has been read and every
    character of it is whitespace, one of [( ) ! & ^ |] or alphanumeric:
    in the calculator that is returned the lookahead token is [EOF] and the
    cursor of the lexer is at or after the end of the text. *)
Theorem accepted_text_is_fully_read (txt : string) (calc : Calculator) :
  calculator txt = Return calc ->
  (forall j d, String.get j txt = Some d -> invalid d = false)
  /\ type (current_token (parser calc)) = EOF
  /\ text (lexer (parser calc)) = txt
  /\ String.length txt <= pos (lexer (parser calc)).
Proof.
  intros E. apply calculator_parse in E as (self & Hinit & Hparse).
  destruct (parse_lexed _ _ _ _ Hinit Hparse)
    as (self1 & (Htext & Hvalid & Hend) & Hty & Heat).
  specialize (Hend Hty).
  apply eat_token_Return in Heat as (_ & _ & Hnext).
  assert (Hnone : String.get (pos (lexer self1)) (text (lexer self1)) = None).
  { destruct (String.get (pos (lexer self1)) (text (lexer self1))) eqn:G;
      [| reflexivity].
    apply get_Some_lt in G. rewrite Htext in G. lia. }
  unfold Lex.get_next_token in Hnext.
  rewrite (skip_whitespaces_at_end _ _ _ Hnone), Hnone in Hnext.
  injection Hnext as <- <-. simpl.
  repeat split; auto.
  intros j d Hd. apply (Hvalid j); [| exact Hd].
  apply get_Some_lt in Hd. lia.
Qed.

Lemma accepted_text_is_fully_read_witness :
  exists calc,
    calculator " a1 &( b|!a1 ) " = Return calc
    /\ type (current_token (parser calc)) = EOF.
Proof.
  destruct (calculator " a1 &( b|!a1 ) ") as [calc | e |] eqn:E;
    [| vm_compute in E; discriminate E ..].
  exists calc. split; [reflexivity |].
  apply (accepted_text_is_fully_read _ _ E).
Defined.

(** X8.  A text that holds a character that is not whitespace, not one of
    [( ) ! & ^ |] and not alphanumeric is never accepted: the pipeline
    raises an exception, wherever the character stands. *)
Theorem invalid_character_is_rejected (txt : string) :
  (exists i c, String.get i txt = Some c /\ invalid c = true) ->
  exists e, calculator txt = Raise e.
Proof.
  intros (i & c & Hget & Hinv).
  pose proof (calculator_defined txt) as Hdef.
  destruct (calculator txt) as [calc | e |] eqn:E.
  - apply calculator_parse in E as (self & Hinit & Hparse).
    destruct (parse_lexed _ _ _ _ Hinit Hparse)
      as (self1 & (Htext & Hvalid & Hend) & Hty & _).
    specialize (Hend Hty). apply get_Some_lt in Hget as Hlt.
    rewrite (Hvalid i c ltac:(lia) Hget) in Hinv. discriminate.
  - now exists e.
  - now elim Hdef.
Qed.

Lemma invalid_character_is_rejected_witness :
  exists e, calculator "a b #" = Raise e.
Proof.
  apply invalid_character_is_rejected.
  exists 4, "#"%char. split; reflexivity.
Defined.

(** ** Parser: more fuel changes nothing *)

Lemma refines_refl {A : Type} (m : M A) : refines m m.
Proof. now intros self _. Qed.

Lemma refines_bind {A B : Type} (m m' : M A) (k k' : A -> M B) :
  refines m m' -> (forall a, refines (k a) (k' a)) ->
  refines (bind m k) (bind m' k').
Proof.
  intros Hm Hk self H. unfold bind in *.
  destruct (m self) as [[a self1] | e |] eqn:E.
  - rewrite (Hm self) by (rewrite E; discriminate).
    rewrite E. now apply Hk.
  - rewrite (Hm self) by (rewrite E; discriminate). now rewrite E.
  - now elim H.
Qed.

Lemma refines_while (token_type : string) (operator : bool -> bool -> bool)
  (operand operand' : M AST) (rest rest' : AST -> M AST) (node : AST) :
  refines operand operand' -> (forall n, refines (rest n) (rest' n)) ->
  refines
    (token <- Parse.get_current_token ;;
     if String.eqb (type token) token_type then
       Parse.eat_token token_type ;;;
       right <- operand ;;
       rest (BinaryOperator token operator node right)
     else ret node)
    (token <- Parse.get_current_token ;;
     if String.eqb (type token) token_type then
       Parse.eat_token token_type ;;;
       right <- operand' ;;
       rest' (BinaryOperator token operator node right)
     else ret node).
Proof.
  intros Ho Hr. apply refines_bind; [apply refines_refl |].
  intros token. destruct (String.eqb (type token) token_type);
    [| apply refines_refl].
  apply refines_bind; [apply refines_refl |]. intros _.
  apply refines_bind; [exact Ho |]. intros right. apply Hr.
Qed.

Lemma grammar_refines (extra fuel : nat) :
  refines (Parse.factor fuel) (Parse.factor (fuel + extra))
  /\ refines (Parse.expr_AND fuel) (Parse.expr_AND (fuel + extra))
  /\ (forall node, refines (Parse.expr_AND_while fuel node)
                     (Parse.expr_AND_while (fuel + extra) node))
  /\ refines (Parse.expr_XOR fuel) (Parse.expr_XOR (fuel + extra))
  /\ (forall node, refines (Parse.expr_XOR_while fuel node)
                     (Parse.expr_XOR_while (fuel + extra) node))
  /\ refines (Parse.expr_OR fuel) (Parse.expr_OR (fuel + extra))
  /\ (forall node, refines (Parse.expr_OR_while fuel node)
                     (Parse.expr_OR_while (fuel + extra) node)).
Proof.
  induction fuel as [| fuel (Hf & Ha & Haw & Hx & Hxw & Ho & How)].
  - repeat split; intros; intros self H; now elim H.
  - change (S fuel + extra) with (S (fuel + extra)).
    split.
    { rewrite !factor_unfold.
      apply refines_bind; [apply refines_refl |]. intros token.
      destruct (String.eqb (type token) NOT).
      - apply refines_bind; [apply refines_refl |]. intros _.
        apply refines_bind; [exact Hf |]. intros node. apply refines_refl.
      - destruct (String.eqb (type token) VAR); [apply refines_refl |].
        destruct (String.eqb (type token) LPAREN); [| apply refines_refl].
        apply refines_bind; [apply refines_refl |]. intros _.
        apply refines_bind; [exact Ho |]. intros node. apply refines_refl. }
    split.
    { rewrite !expr_AND_unfold. now apply refines_bind. }
    split.
    { intros node. rewrite !expr_AND_while_unfold. now apply refines_while. }
    split.
    { rewrite !expr_XOR_unfold. now apply refines_bind. }
    split.
    { intros node. rewrite !expr_XOR_while_unfold. now apply refines_while. }
    split.
    { rewrite !expr_OR_unfold. now apply refines_bind. }
    intros node. rewrite !expr_OR_while_unfold. now apply refines_while.
Qed.

(** X9.  Recursive descent ends on every text: with a budget of
    [4 * len(text) + 8] nested calls and loop iterations the parser never
    runs out, and any larger budget gives the same tree, the same
    dictionary and the same exception. *)
Theorem parse_ends_within_budget (txt : string) (self : Parser) (fuel : nat) :
  Parse.init (Lex.init txt) = Return self ->
  Parse.enough txt <= fuel ->
  Parse.parse (Parse.enough txt) self <> Undefined
  /\ Parse.parse fuel self = Parse.parse (Parse.enough txt) self.
Proof.
  intros Hinit Hfuel.
  pose proof (init_spec txt) as Hspec. rewrite Hinit in Hspec.
  destruct Hspec as (_ & Hok & Hrem).
  assert (Hdef : Parse.parse (Parse.enough txt) self <> Undefined).
  { assert (Hb : 4 * remaining self + 4 <= Parse.enough txt)
      by (unfold Parse.enough; lia).
    apply (outcome_defined _ _ (parse_spec _ _ Hok Hb)). }
  split; [exact Hdef |].
  replace fuel with (Parse.enough txt + (fuel - Parse.enough txt)) by lia.
  destruct (grammar_refines (fuel - Parse.enough txt) (Parse.enough txt))
    as (_ & _ & _ & _ & _ & Hor & _).
  unfold Parse.parse, Parse.expr in *.
  apply (refines_bind _ _ _ _ Hor (fun node => refines_refl _)).
  exact Hdef.
Qed.

Lemma parse_ends_within_budget_witness :
  exists self,
    Parse.init (Lex.init "((a))") = Return self
    /\ Parse.parse 100 self = Parse.parse (Parse.enough "((a))") self.
Proof.
  destruct (Parse.init (Lex.init "((a))")) as [self | e |] eqn:E;
    [| vm_compute in E; discriminate E ..].
  exists self. split; [reflexivity |].
  assert (H : Parse.enough "((a))" <= 100)
    by (unfold Parse.enough; simpl; lia).
  exact (proj2 (parse_ends_within_budget "((a))" self 100 E H)).
Defined.

(** ** The dictionary of a parsed text *)

(** X10.  The id of a leaf is the column of its variable: for every text
    that parses, each leaf of the tree carries a name, and its id is the
    position of that name in the dictionary, whose ids are [0 .. N-1] in
    order.  So [values[node.id]] reads the column that is labelled with
    the leaf's name. *)
Theorem leaf_id_is_column (txt : string) (calc : Calculator) (token : Token)
  (id : nat) :
  calculator txt = Return calc ->
  In (token, id) (leaves (tree calc)) ->
  map snd (variables (parser calc))
  = seq 0 (List.length (variables (parser calc)))
  /\ exists name,
       value token = Some name
       /\ nth_error (keys (variables (parser calc))) id = Some name.
Proof.
  intros E Hin.
  pose proof (calculator_dict_ok _ _ E) as Hok.
  destruct (calculator_built _ _ E) as (Hnamed & _ & Hreg).
  split; [apply Hok |].
  unfold named in Hnamed. unfold registered in Hreg.
  rewrite Forall_forall in Hnamed, Hreg.
  specialize (Hnamed _ Hin). specialize (Hreg _ Hin).
  unfold leaf_name in Hreg. simpl in *.
  destruct (value token) as [name |]; [| now elim Hnamed].
  exists name. split; [reflexivity |]. simpl in Hreg.
  apply dict_get_In in Hreg.
  apply In_nth_error in Hreg as (i & Hi).
  assert (Hid : nth_error (map snd (variables (parser calc))) i = Some id)
    by (rewrite nth_error_map, Hi; reflexivity).
  destruct Hok as (Hseq & _). rewrite Hseq, nth_error_seq in Hid.
  destruct (i <? _); [| discriminate]. injection Hid as <-.
  unfold keys. now rewrite nth_error_map, Hi.
Qed.

Lemma leaf_id_is_column_witness :
  exists calc name,
    calculator "b & a | b" = Return calc
    /\ nth_error (keys (variables (parser calc))) 0 = Some name.
Proof.
  destruct (calculator "b & a | b") as [calc | e |] eqn:E;
    [| vm_compute in E; discriminate E ..].
  destruct (leaf_id_is_column _ _ (mkToken VAR (Some "b")) 0 E)
    as (_ & name & _ & H).
  - vm_compute in E. injection E as <-. simpl. auto.
  - exists calc, name. split; [reflexivity | exact H].
Defined.

Lemma nodup_insert (n : string) (a b : list string) :
  In n b ->
  nodup string_dec (a ++ n :: b) = nodup string_dec (a ++ b).
Proof.
  intros Hn. induction a as [| x a IH]; simpl.
  - destruct (in_dec string_dec n b); [reflexivity | contradiction].
  - rewrite IH.
    destruct (in_dec string_dec x (a ++ n :: b)) as [H1 | H1];
      destruct (in_dec string_dec x (a ++ b)) as [H2 | H2];
      try reflexivity; exfalso.
    + apply H2. apply in_app_iff in H1 as [H1 | [<- | H1]];
        apply in_app_iff; auto.
    + apply H1. apply in_app_iff in H2 as [H2 | H2];
        apply in_app_iff; simpl; auto.
Qed.

Lemma keys_register_all (names : list string) :
  forall d,
    dict_ok d ->
    keys (register_all names d)
    = List.rev (nodup string_dec (List.rev (keys d ++ names))).
Proof.
  induction names as [| n names IH]; intros d Hd.
  - simpl. rewrite app_nil_r, nodup_fixed_point, rev_involutive;
      [reflexivity |].
    apply NoDup_rev, Hd.
  - simpl. unfold register_name at 1.
    pose proof (setdefault_spec n d) as Hspec. unfold setdefault in *.
    destruct (dict_get n d) as [v |] eqn:E; simpl.
    + rewrite (IH d Hd).
      rewrite !rev_app_distr. simpl. rewrite <- app_assoc. simpl.
      rewrite nodup_insert; [reflexivity |].
      apply in_rev. rewrite rev_involutive.
      apply dict_get_In in E. now apply (in_map fst) in E.
    + destruct Hspec as (_ & _ & _ & Hok).
      rewrite (IH _ (Hok Hd)). unfold keys at 1.
      rewrite map_app. simpl. now rewrite <- app_assoc.
Qed.

(** X11.  The columns of the table are the variables in the order of
    their first occurrence in the text: the names of the dictionary are
    the names of the leaves, left to right, with every repetition after
    the first removed. *)
Theorem columns_in_first_seen_order (txt : string) (calc : Calculator) :
  calculator txt = Return calc ->
  keys (variables (parser calc))
  = List.rev (nodup string_dec (List.rev (leaf_names (tree calc)))).
Proof.
  intros E. destruct (calculator_built _ _ E) as (_ & -> & _).
  now rewrite keys_register_all by apply dict_ok_nil.
Qed.

Lemma columns_in_first_seen_order_witness :
  exists calc,
    calculator "b & a | b ^ c & a" = Return calc
    /\ keys (variables (parser calc)) = ["b"; "a"; "c"]%string.
Proof.
  destruct (calculator "b & a | b ^ c & a") as [calc | e |] eqn:E;
    [| vm_compute in E; discriminate E ..].
  exists calc. split; [reflexivity |].
  rewrite (columns_in_first_seen_order _ _ E).
  vm_compute in E. injection E as <-. reflexivity.
Defined.

(** ** Labels and rows side by side *)

Lemma labelled_evaluated_permutation (node : AST) :
  Permutation (labelled_nodes node) (evaluated_nodes node).
Proof.
  induction node as [token operator l IHl r IHr | token operator e IHe | token id];
    simpl.
  - rewrite !app_assoc. apply Permutation_app_tail.
    rewrite Permutation_app_comm. now apply Permutation_app.
  - now apply Permutation_app_tail.
  - constructor.
Qed.

Lemma bare_variable_names (txt : string) (calc : Calculator) :
  calculator txt = Return calc ->
  is_internal (tree calc) = false ->
  List.length (variables (parser calc)) = 1
  /\ snd (Calc.expr true calc)
     = keys (variables (parser calc)) ++ keys (variables (parser calc)).
Proof.
  intros E Hleaf.
  destruct (calculator_built _ _ E) as (_ & Hvars & _).
  split.
  - rewrite Hvars. destruct (tree calc); try discriminate. reflexivity.
  - unfold Calc.expr. destruct (tree calc); try discriminate. simpl.
    now rewrite Nat.eqb_refl.
Qed.

(** X12.  Labels and rows have matching columns: for every text that
    parses, in verbose and in non-verbose mode, every row is returned, its
    assignment has one value per variable, and the number of labels is the
    number of values plus the number of results of the row; the indices
    are [1 .. len(labels)]. *)
Theorem labels_match_row_width (txt : string) (calc : Calculator)
  (verbose : bool) (mask : nat) :
  calculator txt = Return calc ->
  exists values results,
    Calc.row verbose calc mask = Return (values, results)
    /\ List.length values = List.length (variables (parser calc))
    /\ List.length (snd (Calc.expr verbose calc))
       = List.length values + List.length results
    /\ fst (Calc.expr verbose calc)
       = seq 1 (List.length (snd (Calc.expr verbose calc))).
Proof.
  intros E.
  pose proof (calculator_bounded _ _ E) as Hb.
  eexists. eexists. split; [apply (row_eval verbose calc mask Hb) |].
  split; [apply assignment_length |].
  split; [| reflexivity].
  rewrite assignment_length.
  destruct verbose.
  - destruct (is_internal (tree calc)) eqn:Hint; cbn [andb].
    + rewrite (verbose_labels calc Hint).
      rewrite length_app, numbered_labels_length, length_map.
      unfold keys. rewrite length_map. cbn [List.length].
      now rewrite (Permutation_length (labelled_evaluated_permutation _)).
    + destruct (bare_variable_names _ _ E Hint) as (H1 & ->).
      rewrite length_app. unfold keys. rewrite length_map, H1. reflexivity.
  - unfold Calc.expr. cbn [snd andb]. rewrite length_app.
    unfold keys. now rewrite length_map.
Qed.

Lemma labels_match_row_width_witness :
  exists calc values results,
    calculator "!(a | b) ^ (c & a)" = Return calc
    /\ Calc.row true calc 6 = Return (values, results)
    /\ List.length (snd (Calc.expr true calc))
       = List.length values + List.length results.
Proof.
  destruct (calculator "!(a | b) ^ (c & a)") as [calc | e |] eqn:E;
    [| vm_compute in E; discriminate E ..].
  destruct (labels_match_row_width _ _ true 6 E)
    as (values & results & H1 & _ & H2 & _).
  exists calc, values, results. now repeat split.
Defined.

(** X13.  A verbose row holds the value of every internal node exactly
    once: its results are the values of the internal nodes in the order
    right operand, left operand, node, which is a rearrangement of the
    values taken in the order of the labels. *)
Theorem verbose_row_holds_every_node (txt : string) (calc : Calculator)
  (mask : nat) :
  calculator txt = Return calc ->
  is_internal (tree calc) = true ->
  let values :=
    Calc.assignment (List.length (variables (parser calc))) mask in
  Calc.row true calc mask
  = Return (values, map (eval values) (evaluated_nodes (tree calc)))
  /\ Permutation (map (eval values) (labelled_nodes (tree calc)))
       (map (eval values) (evaluated_nodes (tree calc))).
Proof.
  intros E Hint values. split.
  - rewrite row_eval by apply (calculator_bounded _ _ E).
    fold values. now rewrite Hint.
  - apply Permutation_map, labelled_evaluated_permutation.
Qed.

Lemma verbose_row_holds_every_node_witness :
  exists calc,
    calculator "a & b | !a" = Return calc
    /\ Permutation
         (map (eval (Calc.assignment
                       (List.length (variables (parser calc))) 0))
            (labelled_nodes (tree calc)))
         (map (eval (Calc.assignment
                       (List.length (variables (parser calc))) 0))
            (evaluated_nodes (tree calc))).
Proof.
  destruct (calculator "a & b | !a") as [calc | e |] eqn:E;
    [| vm_compute in E; discriminate E ..].
  assert (H : is_internal (tree calc) = true)
    by (vm_compute in E; injection E as <-; reflexivity).
  exists calc. split; [reflexivity |].
  apply (verbose_row_holds_every_node _ _ 0 E H).
Defined.

Lemma one_sided_same_order (node : AST) :
  one_sided node = true -> labelled_nodes node = evaluated_nodes node.
Proof.
  induction node as [token operator l IHl r IHr | token operator e IHe | token id];
    simpl; intros H.
  - apply andb_prop in H as [H Hr]. apply andb_prop in H as [H Hl].
    rewrite (IHl Hl), (IHr Hr).
    apply orb_prop in H as [H | H]; apply negb_true_iff in H.
    + rewrite (evaluated_nodes_leaf _ H). reflexivity.
    + rewrite (evaluated_nodes_leaf _ H). reflexivity.
  - now rewrite (IHe H).
  - reflexivity.
Qed.

(** X14.  When no binary operator of the expression has a compound
    expression on both sides, verbose results line up with verbose
    labels: the results of every row are the values of the internal
    nodes in the order in which their labels are emitted. *)
Theorem one_sided_rows_are_aligned (txt : string) (calc : Calculator)
  (mask : nat) :
  calculator txt = Return calc ->
  is_internal (tree calc) = true ->
  one_sided (tree calc) = true ->
  let names := keys (variables (parser calc)) in
  let values :=
    Calc.assignment (List.length (variables (parser calc))) mask in
  snd (Calc.expr true calc)
  = names ++ snd (numbered_labels (List.length names) (tree calc) [])
  /\ List.length (snd (numbered_labels (List.length names) (tree calc) []))
     = List.length (labelled_nodes (tree calc))
  /\ Calc.row true calc mask
     = Return (values, map (eval values) (labelled_nodes (tree calc))).
Proof.
  intros E Hint Hone names values.
  split; [now apply verbose_labels |].
  split; [now rewrite numbered_labels_length |].
  rewrite row_eval by apply (calculator_bounded _ _ E).
  fold values. now rewrite Hint, (one_sided_same_order _ Hone).
Qed.

Lemma one_sided_rows_are_aligned_witness :
  exists calc,
    calculator "a & (b | !a)" = Return calc
    /\ Calc.row true calc 3
       = Return (Calc.assignment (List.length (variables (parser calc))) 3,
                 map (eval (Calc.assignment
                              (List.length (variables (parser calc))) 3))
                   (labelled_nodes (tree calc))).
Proof.
  destruct (calculator "a & (b | !a)") as [calc | e |] eqn:E;
    [| vm_compute in E; discriminate E ..].
  assert (H1 : is_internal (tree calc) = true)
    by (vm_compute in E; injection E as <-; reflexivity).
  assert (H2 : one_sided (tree calc) = true)
    by (vm_compute in E; injection E as <-; reflexivity).
  exists calc. split; [reflexivity |].
  apply (one_sided_rows_are_aligned _ _ 3 E H1 H2).
Defined.

(** ** The printed table *)

Example docstring_table_1 :
  exists calc,
    calculator "!a" = Return calc
    /\ print_table true calc
       = (["+---+ +-----+";
           "| 1 | | 2   |";
           "| a | | ! a |";
           "+---+ +-----+";
           "| 0 | |  1  |";
           "| 1 | |  0  |";
           "+---+ +-----+"]%string, Return tt).
Proof. eexists. split; vm_compute; reflexivity. Qed.

Example docstring_table_2 :
  exists calc,
    calculator "a & (b | !a)" = Return calc
    /\ print_table true calc
       = (["+---+---+ +-----+---------+---------+";
           "| 1 | 2 | | 3   | 4       | 5       |";
           "| a | b | | ! a | b | [3] | a & [4] |";
           "+---+---+ +-----+---------+---------+";
           "| 0 | 0 | |  1  |    1    |    0    |";
           "| 1 | 0 | |  0  |    0    |    0    |";
           "| 0 | 1 | |  1  |    1    |    0    |";
           "| 1 | 1 | |  0  |    1    |    1    |";
           "+---+---+ +-----+---------+---------+"]%string, Return tt).
Proof. eexists. split; vm_compute; reflexivity. Qed.

Example docstring_table_3 :
  exists calc,
    calculator "a & b | !a" = Return calc
    /\ print_table true calc
       = (["+---+---+ +-------+-----+-----------+";
           "| 1 | 2 | | 3     | 4   | 5         |";
           "| a | b | | a & b | ! a | [3] | [4] |";
           "+---+---+ +-------+-----+-----------+";
           "| 0 | 0 | |   1   |  0  |     1     |";
           "| 1 | 0 | |   0   |  0  |     0     |";
           "| 0 | 1 | |   1   |  0  |     1     |";
           "| 1 | 1 | |   0   |  1  |     1     |";
           "+---+---+ +-------+-----+-----------+"]%string, Return tt).
Proof. eexists. split; vm_compute; reflexivity. Qed.

Lemma length_append (a b : string) :
  String.length (a ++ b) = String.length a + String.length b.
Proof. induction a as [| c a IH]; simpl; [reflexivity | now rewrite IH]. Qed.

Lemma length_repeat_char (c : ascii) (n : nat) :
  String.length (repeat_string (String c EmptyString) n) = n.
Proof. induction n as [| n IH]; simpl; [reflexivity | now rewrite IH]. Qed.

Lemma ljust_length (s : string) (width : nat) :
  String.length s <= width -> String.length (ljust s width) = width.
Proof.
  intros H. unfold ljust. rewrite length_append, length_repeat_char. lia.
Qed.

Lemma center_length (s : string) (width : nat) :
  String.length s <= width -> String.length (center s width) = width.
Proof.
  intros H. unfold center.
  rewrite !length_append, !length_repeat_char.
  pose proof (Nat.Div0.mul_div_le (width - String.length s) 2). lia.
Qed.

Lemma str_nonempty (n : nat) : 1 <= String.length (str n).
Proof.
  unfold str. destruct (Nat.to_uint n); simpl; lia.
Qed.

Lemma digit_length (b : bool) : String.length (digit b) = 1.
Proof. destruct b; reflexivity. Qed.

Lemma dashes_length (sizes : list nat) :
  sizes <> [] ->
  String.length (dashes sizes) + 3
  = list_sum sizes + 3 * List.length sizes.
Proof.
  unfold dashes.
  induction sizes as [| s sizes IH]; intros Hne; [now elim Hne |].
  destruct sizes as [| s' sizes].
  - simpl. rewrite length_repeat_char. lia.
  - change (join "-+-" (map (repeat_string "-") (s :: s' :: sizes)))
      with (repeat_string "-" s ++ "-+-"
            ++ join "-+-" (map (repeat_string "-") (s' :: sizes)))%string.
    rewrite !length_append, length_repeat_char.
    specialize (IH ltac:(discriminate)).
    change (String.length "-+-") with 3.
    change (list_sum (s :: s' :: sizes)) with (s + list_sum (s' :: sizes)).
    change (List.length (s :: s' :: sizes))
      with (S (List.length (s' :: sizes))).
    lia.
Qed.

Lemma list_sum_firstn_skipn (n : nat) (l : list nat) :
  list_sum (firstn n l) + list_sum (skipn n l) = list_sum l.
Proof. now rewrite <- list_sum_app, firstn_skipn. Qed.

Lemma length_firstn_skipn {A : Type} (n : nat) (l : list A) :
  List.length (firstn n l) + List.length (skipn n l) = List.length l.
Proof. now rewrite <- length_app, firstn_skipn. Qed.

Lemma border_length (idx_sep : nat) (sizes : list nat) :
  0 < idx_sep < List.length sizes ->
  String.length (border idx_sep sizes)
  = 3 + list_sum sizes + 3 * List.length sizes.
Proof.
  intros H. unfold border.
  change (join "-" ["+"%string; dashes (firstn idx_sep sizes); "+ +"%string;
                    dashes (skipn idx_sep sizes); "+"%string])
    with ("+" ++ "-" ++ dashes (firstn idx_sep sizes) ++ "-" ++ "+ +" ++ "-"
          ++ dashes (skipn idx_sep sizes) ++ "-" ++ "+")%string.
  rewrite !length_append.
  assert (H1 : firstn idx_sep sizes <> []).
  { intros E. apply (f_equal (@List.length nat)) in E.
    rewrite length_firstn in E. simpl in E. lia. }
  assert (H2 : skipn idx_sep sizes <> []).
  { intros E. apply (f_equal (@List.length nat)) in E.
    rewrite length_skipn in E. simpl in E. lia. }
  pose proof (dashes_length _ H1). pose proof (dashes_length _ H2).
  pose proof (list_sum_firstn_skipn idx_sep sizes).
  pose proof (length_firstn_skipn idx_sep sizes).
  simpl String.length. lia.
Qed.

Lemma heading_cells_length {A : Type} (show : A -> string) (idx_sep : nat)
  (cells : list (A * nat)) :
  Forall (fun cell => String.length (show (fst cell)) <= snd cell) cells ->
  forall k,
    String.length (heading_cells show idx_sep k cells)
    = (if (k <=? idx_sep) && (idx_sep <? k + List.length cells)
       then 2 else 0)
      + list_sum (map snd cells) + 3 * List.length cells.
Proof.
  induction 1 as [| [x s] cells Hx Hcells IH]; intros k.
  - change (0 = (if (k <=? idx_sep) && (idx_sep <? k + 0) then 2 else 0)
                + 0 + 0).
    rewrite (Nat.add_0_r k).
    destruct (Nat.leb_spec k idx_sep), (Nat.ltb_spec idx_sep k);
      cbn [andb]; lia.
  - cbn [heading_cells]. cbn [fst snd] in Hx.
    rewrite !length_append, (ljust_length _ _ Hx), (IH (S k)).
    cbn [map snd list_sum List.length].
    destruct (Nat.eqb_spec k idx_sep) as [-> | Hne].
    + destruct (Nat.leb_spec (S idx_sep) idx_sep); [lia |].
      destruct (Nat.leb_spec idx_sep idx_sep); [| lia].
      destruct (Nat.ltb_spec idx_sep (idx_sep + S (List.length cells)));
        [| lia].
      simpl. lia.
    + destruct (Nat.leb_spec (S k) idx_sep), (Nat.leb_spec k idx_sep),
        (Nat.ltb_spec idx_sep (S k + List.length cells)),
        (Nat.ltb_spec idx_sep (k + S (List.length cells)));
        simpl; lia.
Qed.

Lemma map_snd_combine {A B : Type} (l : list A) :
  forall l' : list B,
    List.length l = List.length l' -> map snd (combine l l') = l'.
Proof.
  induction l as [| a l IH]; intros [| b l'] H; simpl in *;
    try discriminate; try reflexivity.
  f_equal. apply IH. lia.
Qed.

Lemma heading_length {A : Type} (show : A -> string) (idx_sep : nat)
  (items : list A) (sizes : list nat) :
  List.length items = List.length sizes ->
  idx_sep < List.length sizes ->
  Forall (fun cell => String.length (show (fst cell)) <= snd cell)
    (combine items sizes) ->
  String.length (heading show idx_sep items sizes)
  = 3 + list_sum sizes + 3 * List.length sizes.
Proof.
  intros Hlen Hsep Hfit. unfold heading.
  rewrite length_append, (heading_cells_length _ _ _ Hfit 0).
  rewrite (map_snd_combine _ _ Hlen), length_combine, Hlen, Nat.min_id.
  simpl (0 <=? idx_sep).
  destruct (Nat.ltb_spec idx_sep (0 + List.length sizes)); simpl; lia.
Qed.

Lemma row_cells_length (cells : list (bool * nat)) :
  Forall (fun cell => 1 <= snd cell) cells ->
  String.length (row_cells cells)
  = list_sum (map snd cells) + 3 * List.length cells.
Proof.
  induction 1 as [| [b s] cells Hs Hcells IH]; [reflexivity |].
  cbn [row_cells]. cbn [snd] in Hs.
  rewrite !length_append, center_length, IH
    by (rewrite digit_length; exact Hs).
  cbn [map snd List.length]. simpl String.length.
  change (list_sum (s :: map snd cells)) with (s + list_sum (map snd cells)).
  lia.
Qed.

Lemma Forall_combine_snd {A : Type} (P : nat -> Prop) (l : list A) :
  forall sizes,
    Forall P sizes -> Forall (fun cell => P (snd cell)) (combine l sizes).
Proof.
  induction l as [| a l IH]; intros sizes H; simpl; [constructor |].
  destruct H as [| s sizes Hs Hsizes]; constructor; auto.
Qed.

Lemma row_line_length (idx_sep : nat) (sizes : list nat)
  (params results : list bool) :
  Forall (fun s => 1 <= s) sizes ->
  List.length params = idx_sep ->
  idx_sep + List.length results = List.length sizes ->
  String.length (row_line idx_sep sizes params results)
  = 3 + list_sum sizes + 3 * List.length sizes.
Proof.
  intros Hpos Hparams Hresults. unfold row_line.
  assert (H1 : List.length params = List.length (firstn idx_sep sizes))
    by (rewrite length_firstn; lia).
  assert (H2 : List.length results = List.length (skipn idx_sep sizes))
    by (rewrite length_skipn; lia).
  rewrite !length_append, !row_cells_length.
  - rewrite (map_snd_combine _ _ H1), (map_snd_combine _ _ H2).
    rewrite !length_combine, <- H1, <- H2, !Nat.min_id.
    pose proof (list_sum_firstn_skipn idx_sep sizes).
    simpl String.length. lia.
  - apply (Forall_combine_snd (fun s => 1 <= s)).
    rewrite <- (firstn_skipn idx_sep sizes) in Hpos.
    now apply Forall_app in Hpos.
  - apply (Forall_combine_snd (fun s => 1 <= s)).
    rewrite <- (firstn_skipn idx_sep sizes) in Hpos.
    now apply Forall_app in Hpos.
Qed.

Lemma leaves_nonempty (node : AST) : leaves node <> [].
Proof.
  induction node as [token operator l IHl r IHr | token operator e IHe | token id];
    simpl; auto; try discriminate.
  intros H. apply app_eq_nil in H as [H _]. now apply IHl.
Qed.

Lemma parsed_has_variable (txt : string) (calc : Calculator) :
  calculator txt = Return calc ->
  1 <= List.length (variables (parser calc)).
Proof.
  intros E.
  destruct (leaves (tree calc)) as [| leaf ls] eqn:El;
    [now elim (leaves_nonempty (tree calc)) |].
  assert (H : In (leaf_name leaf) (keys (variables (parser calc)))).
  { apply (calculator_keys txt _ _ E). unfold leaf_names.
    rewrite El. now left. }
  unfold keys in H.
  destruct (variables (parser calc)); [contradiction | simpl; lia].
Qed.

Lemma labels_length (txt : string) (calc : Calculator) (verbose : bool)
  (mask : nat) :
  calculator txt = Return calc ->
  List.length (snd (Calc.expr verbose calc))
  = List.length (variables (parser calc))
    + List.length (snd (table_row verbose calc mask))
  /\ 1 <= List.length (snd (table_row verbose calc mask)).
Proof.
  intros E. unfold table_row. cbn [snd].
  destruct verbose.
  - destruct (is_internal (tree calc)) eqn:Hint; cbn [andb].
    + rewrite (verbose_labels calc Hint).
      rewrite length_app, numbered_labels_length, length_map.
      unfold keys. rewrite length_map. cbn [List.length].
      rewrite (Permutation_length (labelled_evaluated_permutation _)).
      split; [reflexivity |].
      destruct (evaluated_nodes_internal _ Hint) as [init ->].
      rewrite length_app. simpl. lia.
    + destruct (bare_variable_names _ _ E Hint) as (H1 & ->).
      rewrite length_app. unfold keys. rewrite length_map, H1.
      split; [reflexivity | simpl; lia].
  - unfold Calc.expr. cbn [snd andb]. rewrite length_app.
    unfold keys. rewrite length_map. split; [reflexivity | simpl; lia].
Qed.

Lemma column_sizes_fit (indices : list nat) :
  forall exprs,
    List.length indices = List.length exprs ->
    let sizes := column_sizes indices exprs in
    List.length sizes = List.length exprs
    /\ Forall (fun s => 1 <= s) sizes
    /\ Forall (fun cell => String.length (str (fst cell)) <= snd cell)
         (combine indices sizes)
    /\ Forall (fun cell => String.length (fst cell) <= snd cell)
         (combine exprs sizes).
Proof.
  unfold column_sizes.
  induction indices as [| i indices IH]; intros [| e exprs] H;
    simpl in *; try discriminate.
  - repeat split; constructor.
  - destruct (IH exprs ltac:(lia)) as (H1 & H2 & H3 & H4).
    pose proof (str_nonempty i).
    repeat split; try constructor; simpl; auto; lia.
Qed.

Lemma print_rows_lines (verbose : bool) (calc : Calculator) (idx_sep : nat)
  (sizes : list nat) (width : nat) (masks : list nat) :
  (forall mask, In mask masks ->
     exists params results,
       Calc.row verbose calc mask = Return (params, results)
       /\ String.length (row_line idx_sep sizes params results) = width) ->
  exists lines,
    print_rows verbose calc idx_sep sizes masks = (lines, Return tt)
    /\ List.length lines = List.length masks
    /\ Forall (fun line => String.length line = width) lines.
Proof.
  induction masks as [| mask masks IH]; intros H.
  - exists []. repeat split. constructor.
  - destruct (H mask ltac:(now left)) as (params & results & Hrow & Hw).
    destruct IH as (lines & Hlines & Hlen & Hall).
    { intros m Hm. apply H. now right. }
    exists (row_line idx_sep sizes params results :: lines).
    simpl. rewrite Hrow, Hlines.
    repeat split; [simpl; lia | now constructor].
Qed.

(** X15.  The printed table is a rectangle: for every text that parses,
    [print_table] ends without an exception after printing four heading
    lines, one line per assignment and a closing border, and every line
    has the same width, three characters per column plus the widths of
    the columns plus three. *)
Theorem printed_table_is_rectangular (txt : string) (calc : Calculator)
  (verbose : bool) :
  calculator txt = Return calc ->
  let sizes :=
    column_sizes (fst (Calc.expr verbose calc))
      (snd (Calc.expr verbose calc)) in
  exists lines,
    print_table verbose calc = (lines, Return tt)
    /\ List.length lines
       = 2 ^ List.length (variables (parser calc)) + 5
    /\ Forall
         (fun line =>
            String.length line
            = 3 + list_sum sizes + 3 * List.length sizes)
         lines.
Proof.
  intros E sizes.
  set (N := List.length (variables (parser calc))).
  set (width := 3 + list_sum sizes + 3 * List.length sizes).
  pose proof (parsed_has_variable _ _ E) as HN. fold N in HN.
  destruct (labels_length _ _ verbose 0 E) as (Hlabels & Hresults).
  fold N in Hlabels.
  assert (Hindices : List.length (fst (Calc.expr verbose calc))
                     = List.length (snd (Calc.expr verbose calc))).
  { unfold Calc.expr. cbn [fst snd]. now rewrite length_seq. }
  destruct (column_sizes_fit _ _ Hindices) as (Hsizes & Hpos & Hfit1 & Hfit2).
  fold sizes in Hsizes, Hpos, Hfit1, Hfit2.
  assert (Hsep : 0 < N < List.length sizes) by lia.
  assert (Hborder : String.length (border N sizes) = width)
    by now apply border_length.
  destruct (print_rows_lines verbose calc N sizes width (seq 0 (2 ^ N)))
    as (lines & Hlines & Hlen & Hall).
  { intros mask _.
    exists (fst (table_row verbose calc mask)),
           (snd (table_row verbose calc mask)).
    split.
    - rewrite <- surjective_pairing.
      apply row_eval, (calculator_bounded _ _ E).
    - apply row_line_length; [exact Hpos | apply assignment_length |].
      destruct (labels_length _ _ verbose mask E) as (H1 & _).
      fold N in H1. lia. }
  unfold print_table.
  destruct (Calc.expr verbose calc) as [indices exprs] eqn:Eexpr.
  cbn [fst snd] in *. fold N. fold sizes.
  rewrite Nat.shiftl_1_l, Hlines.
  eexists. split; [reflexivity |]. split.
  - rewrite !length_app. simpl. rewrite Hlen, length_seq. lia.
  - repeat constructor; try exact Hborder.
    + apply heading_length; [lia | lia | exact Hfit1].
    + apply heading_length; [lia | lia | exact Hfit2].
    + apply Forall_app. split; [exact Hall |].
      constructor; [exact Hborder | constructor].
Qed.

Lemma printed_table_is_rectangular_witness :
  exists calc lines,
    calculator "x1 ^ (y | !x1) & z" = Return calc
    /\ print_table true calc = (lines, Return tt)
    /\ List.length lines
       = 2 ^ List.length (variables (parser calc)) + 5.
Proof.
  destruct (calculator "x1 ^ (y | !x1) & z") as [calc | e |] eqn:E;
    [| vm_compute in E; discriminate E ..].
  destruct (printed_table_is_rectangular _ _ true E)
    as (lines & H1 & H2 & _).
  exists calc, lines. split; [reflexivity | split; assumption].
Defined.

(** ** Ids out of range *)

Lemma bounded_dec (n : nat) (node : AST) :
  {bounded n node} + {~ bounded n node}.
Proof.
  induction node as [token operator l IHl r IHr | token operator e IHe | token id];
    simpl.
  - destruct IHl as [Hl | Hl]; [| right; tauto].
    destruct IHr as [Hr | Hr]; [left; tauto | right; tauto].
  - exact IHe.
  - apply lt_dec.
Qed.

Lemma result_visit_unbounded (verbose : bool) (n : nat) (node : AST) :
  ~ bounded n node ->
  exists i,
    n <= i
    /\ forall values results,
         List.length values = n ->
         Calc.result_visit verbose values node results
         = Raise (IndexError i).
Proof.
  induction node as [token operator l IHl r IHr | token operator e IHe | token id];
    simpl; intros Hnot.
  - destruct (bounded_dec n r) as [Hr | Hr].
    + destruct IHl as (i & Hi & Hraise); [tauto |].
      exists i. split; [exact Hi |]. intros values results Hlen.
      rewrite result_visit_eval by now rewrite Hlen.
      now rewrite Hraise.
    + destruct (IHr Hr) as (i & Hi & Hraise).
      exists i. split; [exact Hi |]. intros values results Hlen.
      now rewrite Hraise.
  - destruct (IHe Hnot) as (i & Hi & Hraise).
    exists i. split; [exact Hi |]. intros values results Hlen.
    now rewrite Hraise.
  - exists id. split; [lia |]. intros values results Hlen.
    unfold Calc.index.
    destruct (nth_error values id) eqn:E; [| reflexivity].
    assert (nth_error values id <> None) by congruence.
    apply nth_error_Some in H. lia.
Qed.

(** X16.  A calculator whose tree holds a variable id that is not below
    the number of variables cannot be evaluated: every row raises
    [IndexError] at the first such leaf that is visited, so no row is
    returned, and [print_table] prints the four heading lines and then
    ends with that exception. *)
Theorem out_of_range_id_raises (calc : Calculator) (verbose : bool) :
  ~ bounded (List.length (variables (parser calc))) (tree calc) ->
  exists i,
    List.length (variables (parser calc)) <= i
    /\ (forall mask, Calc.row verbose calc mask = Raise (IndexError i))
    /\ Calc.result verbose calc = Raise (IndexError i)
    /\ exists top,
         print_table verbose calc = (top, Raise (IndexError i))
         /\ List.length top = 4.
Proof.
  intros Hnot.
  destruct (result_visit_unbounded verbose _ _ Hnot) as (i & Hi & Hraise).
  assert (Hrow : forall mask, Calc.row verbose calc mask = Raise (IndexError i)).
  { intros mask. unfold Calc.row.
    now rewrite Hraise by apply assignment_length. }
  assert (Hseq : exists k,
             seq 0 (Nat.shiftl 1 (List.length (variables (parser calc))))
             = 0 :: seq 1 k).
  { rewrite Nat.shiftl_1_l.
    destruct (2 ^ List.length (variables (parser calc))) as [| k] eqn:E.
    - now apply Nat.pow_nonzero in E.
    - now exists k. }
  destruct Hseq as (k & Hseq).
  exists i. split; [exact Hi |]. split; [exact Hrow |]. split.
  - unfold Calc.result. rewrite Hseq. simpl. now rewrite Hrow.
  - unfold print_table.
    destruct (Calc.expr verbose calc) as [indices exprs].
    rewrite Hseq. cbn [print_rows]. rewrite Hrow.
    eexists. split; [reflexivity |]. reflexivity.
Qed.

Lemma out_of_range_id_raises_witness :
  exists i,
    Calc.result true
      (mkCalculator (mkParser (mkLexer "a" 1) (mkToken EOF None) [("a", 0)])
         (UnaryOperator (mkToken NOT None) not_
            (Variable_ (mkToken VAR (Some "b")) 1)))
    = Raise (IndexError i).
Proof.
  destruct (out_of_range_id_raises
              (mkCalculator
                 (mkParser (mkLexer "a" 1) (mkToken EOF None) [("a", 0)])
                 (UnaryOperator (mkToken NOT None) not_
                    (Variable_ (mkToken VAR (Some "b")) 1))) true)
    as (i & _ & _ & H & _).
  - simpl. lia.
  - now exists i.
Defined.

(** ** Blank input *)

Lemma get_None_of_ge (s : string) (n : nat) :
  String.length s <= n -> String.get n s = None.
Proof.
  intros H. destruct (String.get n s) as [c |] eqn:E; [| reflexivity].
  apply get_Some_lt in E. lia.
Qed.

(** X17.  A text without any token, empty or made of whitespace only, is
    a syntax error: the pipeline raises "expected factor" with the
    position at the end of the text. *)
Theorem blank_text_is_syntax_error (txt : string) :
  (forall j c, String.get j txt = Some c -> isspace c = true) ->
  calculator txt = Raise (InvalidSyntax "factor" (String.length txt)).
Proof.
  intros Hblank.
  assert (Hskip : Lex.skip_whitespaces (String.length txt) txt 0
                  = String.length txt).
  { rewrite <- (Nat.add_0_r (String.length txt)) at 1.
    rewrite skip_whitespaces_run; [reflexivity |].
    intros j Hj. destruct (String.get j txt) as [c |] eqn:E.
    - exists c. split; [reflexivity | now apply (Hblank j)].
    - apply get_None_ge in E. lia. }
  unfold calculator, Parse.init, Lex.init, Lex.get_next_token.
  cbn [text pos]. rewrite Hskip.
  rewrite (get_None_of_ge txt _ (Nat.le_refl _)).
  unfold Calc.init, Parse.parse, Parse.expr.
  replace (Parse.enough txt)
    with (S (S (S (S (4 * String.length txt + 4)))))
    by (unfold Parse.enough; lia).
  rewrite expr_OR_unfold, expr_XOR_unfold, expr_AND_unfold, factor_unfold.
  reflexivity.
Qed.

Lemma blank_text_is_syntax_error_witness :
  calculator "   " = Raise (InvalidSyntax "factor" 3).
Proof.
  apply (blank_text_is_syntax_error "   ").
  intros j c H.
  destruct j as [| [| [| j]]]; simpl in H; try discriminate;
    injection H as <-; reflexivity.
Defined.

(** ** The exceptions of the pipeline *)

Lemma bind_Raise {A B : Type} (m : M A) (k : A -> M B) (self : Parser)
  (e : Exception) :
  bind m k self = Raise e ->
  m self = Raise e
  \/ exists a self', m self = Return (a, self') /\ k a self' = Raise e.
Proof.
  unfold bind. destruct (m self) as [[a self'] | e' |]; try discriminate.
  - intros H. right. now exists a, self'.
  - intros [= ->]. now left.
Qed.

Lemma get_next_token_Raise (self : Lexer) (e : Exception) :
  Lex.get_next_token self = Raise e ->
  exists c p,
    e = InvalidCharacter c p
    /\ String.get p (text self) = Some c /\ invalid c = true.
Proof.
  unfold Lex.get_next_token.
  destruct (skip_whitespaces_spec (String.length (text self)) (text self)
              (pos self)) as (_ & _ & Hstop).
  set (q := Lex.skip_whitespaces _ _ _) in *.
  destruct (String.get q (text self)) as [c |] eqn:E; [| discriminate].
  destruct (char_in c SINGLE_CHARACTER_TOKENS) eqn:Ec; [discriminate |].
  destruct (isalnum c) eqn:Ea.
  - destruct (Lex.read_variable _ _ _). discriminate.
  - intros [= <-]. exists c, q. repeat split; auto.
    unfold invalid. rewrite Ec, Ea, (Hstop ltac:(lia) c); reflexivity.
Qed.

Lemma get_next_token_bounded (self : Lexer) (token : Token) (self' : Lexer) :
  Lex.get_next_token self = Return (token, self') ->
  pos self <= String.length (text self) ->
  text self' = text self /\ pos self' <= String.length (text self).
Proof.
  intros H Hp.
  destruct (get_next_token_spec _ _ _ H) as (Htext & _ & _ & Hlt).
  split; [exact Htext |].
  destruct (String.eqb_spec (type token) EOF) as [Heof | Hne];
    [| now destruct (Hlt Hne)].
  unfold Lex.get_next_token in H.
  pose proof (skip_whitespaces_bounded (String.length (text self))
                (text self) (pos self) Hp) as Hq.
  set (q := Lex.skip_whitespaces _ _ _) in *.
  destruct (String.get q (text self)) as [c |].
  - destruct (char_in c SINGLE_CHARACTER_TOKENS).
    + injection H as <- _. simpl in Heof.
      now destruct (single_character_type c).
    + destruct (isalnum c); [| discriminate].
      destruct (Lex.read_variable _ _ _). injection H as <- _.
      discriminate.
  - injection H as _ <-. exact Hq.
Qed.

Lemma reading_eat_token (txt token_type : string) (self : Parser) (u : unit)
  (self' : Parser) :
  reading txt self -> Parse.eat_token token_type self = Return (u, self') ->
  reading txt self'.
Proof.
  intros (Htext & Hpos) H.
  apply eat_token_Return in H as (_ & _ & Hnext).
  rewrite <- Htext in Hpos.
  destruct (get_next_token_bounded _ _ _ Hnext Hpos) as (H1 & H2).
  split; congruence.
Qed.

Lemma reading_register (txt : string) (token : Token) (self : Parser)
  (id : nat) (self' : Parser) :
  reading txt self -> Parse.register token self = Return (id, self') ->
  reading txt self'.
Proof.
  intros H Hr. apply register_Return in Hr as (name & _ & _ & Hl & _).
  unfold reading in *. now rewrite Hl.
Qed.

Lemma reading_kept (txt : string) (fuel : nat) :
  rule_keeps (reading txt) (fun _ => True) (Parse.factor fuel)
  /\ rule_keeps (reading txt) (fun _ => True) (Parse.expr_AND fuel)
  /\ loop_keeps (reading txt) (fun _ => True) (Parse.expr_AND_while fuel)
  /\ rule_keeps (reading txt) (fun _ => True) (Parse.expr_XOR fuel)
  /\ loop_keeps (reading txt) (fun _ => True) (Parse.expr_XOR_while fuel)
  /\ rule_keeps (reading txt) (fun _ => True) (Parse.expr_OR fuel)
  /\ loop_keeps (reading txt) (fun _ => True) (Parse.expr_OR_while fuel).
Proof.
  apply grammar_keeps; auto.
  - apply reading_eat_token.
  - apply reading_register.
Qed.

Lemma eat_token_Raise (txt token_type : string) (self : Parser)
  (e : Exception) :
  reading txt self ->
  Parse.eat_token token_type self = Raise e ->
  (type (current_token self) <> token_type
   /\ e = InvalidSyntax token_type (pos (lexer self)))
  \/ (type (current_token self) = token_type /\ raised_on txt e).
Proof.
  intros (Htext & Hpos). unfold Parse.eat_token, Parse.raise_syntax.
  destruct (String.eqb_spec (type (current_token self)) token_type)
    as [Hty | Hty]; simpl.
  - destruct (Lex.get_next_token (lexer self)) as [[t l] | e' |] eqn:E;
      try discriminate.
    intros [= ->]. right. split; [exact Hty |]. left.
    apply get_next_token_Raise in E. now rewrite Htext in E.
  - intros [= <-]. left. now split.
Qed.

Lemma eaten_token_Raise (txt token_type : string) (self : Parser)
  (e : Exception) :
  reading txt self ->
  type (current_token self) = token_type ->
  Parse.eat_token token_type self = Raise e -> raised_on txt e.
Proof.
  intros Hr Hty H.
  destruct (eat_token_Raise _ _ _ _ Hr H) as [(Hne & _) | (_ & HR)];
    [now elim Hne | exact HR].
Qed.

Lemma expected_Raise (txt token_type : string) (self : Parser)
  (e : Exception) :
  reading txt self ->
  token_type = RPAREN \/ token_type = EOF ->
  Parse.eat_token token_type self = Raise e -> raised_on txt e.
Proof.
  intros Hr Hwhat H.
  destruct (eat_token_Raise _ _ _ _ Hr H) as [(_ & ->) | (_ & HR)];
    [| exact HR].
  right. exists token_type, (pos (lexer self)).
  destruct Hr as (_ & Hpos). repeat split; auto.
Qed.

Lemma register_no_Raise (token : Token) (self : Parser) (e : Exception) :
  Parse.register token self <> Raise e.
Proof.
  unfold Parse.register. destruct (value token); [| discriminate].
  destruct (setdefault _ _ _). discriminate.
Qed.

Lemma seq_raises (txt : string) (first : M AST) (rest : AST -> M AST) :
  rule_keeps (reading txt) (fun _ => True) first ->
  rule_raises (reading txt) (raised_on txt) first ->
  (forall node, rule_raises (reading txt) (raised_on txt) (rest node)) ->
  rule_raises (reading txt) (raised_on txt) (node <- first ;; rest node).
Proof.
  intros Hkeep Hfirst Hrest self e HI H.
  apply bind_Raise in H as [H | (node & self1 & H1 & H2)].
  - exact (Hfirst _ _ HI H).
  - destruct (Hkeep _ _ _ HI H1) as (HI1 & _).
    exact (Hrest node _ _ HI1 H2).
Qed.

Lemma while_raises (txt token_type : string)
  (operator : bool -> bool -> bool) (operand : M AST) (rest : AST -> M AST)
  (node : AST) :
  rule_keeps (reading txt) (fun _ => True) operand ->
  rule_raises (reading txt) (raised_on txt) operand ->
  (forall n, rule_raises (reading txt) (raised_on txt) (rest n)) ->
  rule_raises (reading txt) (raised_on txt)
    (token <- Parse.get_current_token ;;
     if String.eqb (type token) token_type then
       Parse.eat_token token_type ;;;
       right <- operand ;;
       rest (BinaryOperator token operator node right)
     else ret node).
Proof.
  intros Hkeep Hoperand Hrest self e HI H.
  apply bind_Raise in H as [H | (token & self0 & H0 & H)];
    [discriminate H |].
  unfold Parse.get_current_token in H0. injection H0 as <- <-.
  destruct (String.eqb_spec (type (current_token self)) token_type)
    as [Hty | Hty]; [| discriminate H].
  apply bind_Raise in H as [H | (u & self1 & H1 & H)].
  - exact (eaten_token_Raise _ _ _ _ HI Hty H).
  - pose proof (reading_eat_token _ _ _ _ _ HI H1) as HI1.
    apply bind_Raise in H as [H | (right & self2 & H2 & H)].
    + exact (Hoperand _ _ HI1 H).
    + destruct (Hkeep _ _ _ HI1 H2) as (HI2 & _).
      exact (Hrest _ _ _ HI2 H).
Qed.

Lemma factor_raises (txt : string) (fuel : nat) :
  rule_raises (reading txt) (raised_on txt) (Parse.factor fuel) ->
  rule_raises (reading txt) (raised_on txt) (Parse.expr_OR fuel) ->
  rule_raises (reading txt) (raised_on txt) (Parse.factor (S fuel)).
Proof.
  intros Hfactor Hor self e HI H.
  destruct (reading_kept txt fuel) as (_ & _ & _ & _ & _ & Hkeep & _).
  rewrite factor_unfold in H.
  apply bind_Raise in H as [H | (token & self0 & H0 & H)];
    [discriminate H |].
  unfold Parse.get_current_token in H0. injection H0 as <- <-.
  destruct (String.eqb_spec (type (current_token self)) NOT) as [E1 | E1].
  - apply bind_Raise in H as [H | (u & self1 & H1 & H)].
    + exact (eaten_token_Raise _ _ _ _ HI E1 H).
    + pose proof (reading_eat_token _ _ _ _ _ HI H1) as HI1.
      apply bind_Raise in H as [H | (node & self2 & H2 & H)];
        [exact (Hfactor _ _ HI1 H) | discriminate H].
  - destruct (String.eqb_spec (type (current_token self)) VAR) as [E2 | E2].
    + apply bind_Raise in H as [H | (u & self1 & H1 & H)].
      * exact (eaten_token_Raise _ _ _ _ HI E2 H).
      * apply bind_Raise in H as [H | (id & self2 & H2 & H)];
          [now apply register_no_Raise in H | discriminate H].
    + destruct (String.eqb_spec (type (current_token self)) LPAREN)
        as [E3 | E3].
      * apply bind_Raise in H as [H | (u & self1 & H1 & H)].
        -- exact (eaten_token_Raise _ _ _ _ HI E3 H).
        -- pose proof (reading_eat_token _ _ _ _ _ HI H1) as HI1.
           apply bind_Raise in H as [H | (node & self2 & H2 & H)];
             [exact (Hor _ _ HI1 H) |].
           destruct (Hkeep _ _ _ HI1 H2) as (HI2 & _).
           apply bind_Raise in H as [H | (u' & self3 & H3 & H)];
             [| discriminate H].
           apply (expected_Raise _ _ _ _ HI2 (or_introl eq_refl) H).
      * unfold Parse.raise_syntax in H. injection H as <-.
        right. exists "factor"%string, (pos (lexer self)).
        destruct HI as (_ & Hpos). repeat split; auto.
Qed.

Lemma grammar_raises (txt : string) (fuel : nat) :
  rule_raises (reading txt) (raised_on txt) (Parse.factor fuel)
  /\ rule_raises (reading txt) (raised_on txt) (Parse.expr_AND fuel)
  /\ (forall node, rule_raises (reading txt) (raised_on txt)
                     (Parse.expr_AND_while fuel node))
  /\ rule_raises (reading txt) (raised_on txt) (Parse.expr_XOR fuel)
  /\ (forall node, rule_raises (reading txt) (raised_on txt)
                     (Parse.expr_XOR_while fuel node))
  /\ rule_raises (reading txt) (raised_on txt) (Parse.expr_OR fuel)
  /\ (forall node, rule_raises (reading txt) (raised_on txt)
                     (Parse.expr_OR_while fuel node)).
Proof.
  induction fuel as [| fuel (Hf & Ha & Haw & Hx & Hxw & Ho & How)].
  - unfold rule_raises. repeat split; intros; discriminate.
  - destruct (reading_kept txt fuel) as (Kf & Ka & _ & Kx & _ & Ko & _).
    split; [now apply factor_raises |].
    split; [rewrite expr_AND_unfold; now apply seq_raises |].
    split; [intros node; rewrite expr_AND_while_unfold;
            now apply while_raises |].
    split; [rewrite expr_XOR_unfold; now apply seq_raises |].
    split; [intros node; rewrite expr_XOR_while_unfold;
            now apply while_raises |].
    split; [rewrite expr_OR_unfold; now apply seq_raises |].
    intros node. rewrite expr_OR_while_unfold. now apply while_raises.
Qed.

(** X18.  The only exceptions the pipeline raises are the two kinds of
    the lexer and the parser: an invalid character, reported with the
    offset at which it stands in the text, or a syntax error that expects
    a factor, a closing parenthesis or the end of the input, reported
    with a position that is not beyond the end of the text.  Evaluation
    errors never come out of a parsed text. *)
Theorem pipeline_exceptions (txt : string) (e : Exception) :
  calculator txt = Raise e -> raised_on txt e.
Proof.
  unfold calculator, Calc.init, Parse.init.
  destruct (Lex.get_next_token (Lex.init txt)) as [[token lexer'] | e' |] eqn:E;
    try discriminate.
  - assert (HI : reading txt (mkParser lexer' token [])).
    { destruct (get_next_token_bounded _ _ _ E) as (H1 & H2);
        [simpl; lia |]. now split. }
    destruct (Parse.parse (Parse.enough txt) (mkParser lexer' token []))
      as [[node self'] | e' |] eqn:Eparse; try discriminate.
    intros [= ->]. unfold Parse.parse, Parse.expr in Eparse.
    destruct (grammar_raises txt (Parse.enough txt))
      as (_ & _ & _ & _ & _ & Hor & _).
    destruct (reading_kept txt (Parse.enough txt))
      as (_ & _ & _ & _ & _ & Hkeep & _).
    apply bind_Raise in Eparse as [H | (node & self1 & H1 & H)];
      [exact (Hor _ _ HI H) |].
    destruct (Hkeep _ _ _ HI H1) as (HI1 & _).
    apply bind_Raise in H as [H | (u & self2 & H2 & H)];
      [| discriminate H].
    apply (expected_Raise _ _ _ _ HI1 (or_intror eq_refl) H).
  - intros [= ->]. left. now apply get_next_token_Raise in E.
Qed.

Lemma pipeline_exceptions_witness :
  raised_on "(a | b" (InvalidSyntax RPAREN 6).
Proof.
  apply pipeline_exceptions. vm_compute. reflexivity.
Defined.
